(** * Causal provenance queries of [entcausal/queries/causality.go]

    A shallow embedding of package [queries]: the result records, the
    breadth-first walk of [TraceCausality], the placeholder queries and the
    derived views on [CausalPath], followed by the properties the design
    document states about them. *)

From stdpp Require Import gmap strings list fin_maps pretty.
From Stdlib Require Import ZArith Lia Sorted Ascii.

Local Open Scope Z_scope.

(** ** Go values *)

(** [int] of a 64-bit target: a [Z] kept in range by [wrap]. *)
Definition min_int : Z := - 2 ^ 63.
Definition max_int : Z := 2 ^ 63 - 1.

Definition wrap (z : Z) : Z := (z + 2 ^ 63) mod 2 ^ 64 - 2 ^ 63.

Definition int_add (a b : Z) : Z := wrap (a + b).

Definition in_int (z : Z) : Prop := min_int <= z <= max_int.

(** [time.Time], as an instant on a linear scale. *)
Definition Time := Z.

(** [float64] fields are only stored, never computed with: they are carried
    by their IEEE-754 bit pattern. *)
Definition float64 := Z.
Definition float64_zero : float64 := 0.

(** The [error] interface; [None] is Go's [nil]. No function of the package
    builds an error value. *)
Definition error := option string.
Definition nil_error : error := None.

(** [context.Context]: the contexts that the constructors of package
    [context] build, among them the cancelled ones. Every query receives a
    context and none consults it. *)
Inductive Context : Set :=
| Background
| WithCancel (parent : Context) (cancelled : bool)
| WithDeadline (parent : Context) (deadline : Time)
| WithValue (parent : Context) (key val : string).

(** A slice is either [nil] or backed by an array; [make([]T, 0)] is empty
    but not [nil]. *)
Inductive slice (A : Type) : Type :=
| nil_slice
| mk_slice (l : list A).
Arguments nil_slice {A}.
Arguments mk_slice {A} l.

Definition elems {A} (s : slice A) : list A :=
  match s with
  | nil_slice => []
  | mk_slice l => l
  end.

Definition is_nil {A} (s : slice A) : bool :=
  match s with
  | nil_slice => true
  | mk_slice _ => false
  end.

Definition make0 {A} : slice A := mk_slice [].

Definition slice_append {A} (s : slice A) (x : A) : slice A :=
  mk_slice (elems s ++ [x]).

Definition len {A} (s : slice A) : Z := Z.of_nat (length (elems s)).

(** ** Result records *)

Module CausalNode.
Record t := mk {
  ID : string;
  Type_ : string;
  Timestamp : Time;
  Depth : Z;
  Metadata : option (gmap string string) (* a map that is [nil] when [None] *)
}.
End CausalNode.

Module CausalEdge.
Record t := mk {
  SourceID : string;
  SourceType : string;
  TargetID : string;
  TargetType : string;
  EdgeType : string;
  Confidence : float64
}.
End CausalEdge.

Module CausalPath.
Record t := mk {
  OutputID : string;
  Nodes : slice CausalNode.t;
  Edges : slice CausalEdge.t;
  Depth : Z;
  TotalLatencyMs : float64;
  TracedAt : Time
}.
End CausalPath.

Module EmergentPatternResult.
Record t := mk {
  PatternHash : string;
  OccurrenceCount : Z;
  NeuronIndices : slice Z;
  PopulationID : string;
  FirstSeen : Time;
  LastSeen : Time;
  Significance : float64
}.
End EmergentPatternResult.

Module AgentDecisionPath.
Record t := mk {
  AgentID : string;
  ActionID : string;
  SpikeEvents : slice CausalNode.t;
  Decisions : slice CausalNode.t;
  Workflows : slice CausalNode.t;
  Outputs : slice CausalNode.t;
  TotalDepth : Z
}.
End AgentDecisionPath.

(** [CausalQueryService]: [client] is an [interface{}] that no method
    inspects, hence a value of any type. *)
Record CausalQueryService (C : Type) := NewCausalQueryService { client : C }.
Arguments NewCausalQueryService {C} client.
Arguments client {C} _.

(** ** The world a query runs in *)

(** A row of the [spike_events] table, with the fields of
    [schema/spike_event.go] that the pattern query names. *)
Record SpikeEvent := {
  se_id : string;
  se_timestamp : Time;
  se_population_id : string;
  se_neuron_indices : list Z;
  se_pattern_hash : string
}.

(** Modelled from the spec: the persistent entity store, an external
    collaborator that is not part of the repository. It holds the entities
    by id with their kind, the directed causal edges (effect, cause) and the
    spike events. *)
Record Store := {
  entities : gmap string string;
  causes : list (string * string);
  spike_events : list SpikeEvent
}.

(** The store and the wall clock. [time.Now()] reads the clock and lets it
    advance. *)
Record World := {
  store : Store;
  wall : nat -> Time;
  ticks : nat
}.

Definition time_Now (w : World) : Time * World :=
  (wall w (ticks w),
   {| store := store w; wall := wall w; ticks := S (ticks w) |}).

(** ** Helper functions *)

Definition max (a b : Z) : Z := if a >? b then a else b.

(** [if x <= 0 { x = dflt }], the guard that opens three of the queries. *)
Definition normalize (x dflt : Z) : Z := if x <=? 0 then dflt else x.

(** ** TraceCausality *)

Record QueueItem := {
  id : string;
  nodeType : string;
  depth : Z
}.

Record LoopState := {
  queue : list QueueItem;
  visited : gmap string bool;
  path : CausalPath.t;
  world : World
}.

(** [visited[k]]: a missing key reads as [false]. *)
Definition visited_get (v : gmap string bool) (k : string) : bool :=
  default false (v !! k).

Section Traversal.

(** The parent fetch called on line 131. The walk is written once for any
    fetch; the method [getParentNodes] of the source is the instance given
    after the section. *)
Variable fetch : string -> string -> slice CausalNode.t * slice CausalEdge.t.

(** [for _, parent := range parents { if !visited[parent.ID] { queue = append(...) } }] *)
Definition enqueue_parents (v : gmap string bool) (d : Z)
    (parents : list CausalNode.t) (q : list QueueItem) : list QueueItem :=
  fold_left
    (fun q parent =>
       if visited_get v (CausalNode.ID parent) then q
       else q ++ [{| id := CausalNode.ID parent;
                     nodeType := CausalNode.Type_ parent;
                     depth := int_add d 1 |}])
    parents q.

(** One pass through the body of the [for] loop, lines 112 to 143. *)
Definition trace_step (st : LoopState) : LoopState :=
  match queue st with
  | [] => st
  | current :: rest =>
    if visited_get (visited st) (id current) then
      {| queue := rest; visited := visited st;
         path := path st; world := world st |}
    else
      let visited' := <[id current := true]> (visited st) in
      let '(now, w') := time_Now (world st) in
      let node := CausalNode.mk (id current) (nodeType current) now
                                (depth current) None in
      let p := path st in
      let '(parents, edges) := fetch (id current) (nodeType current) in
      {| queue := enqueue_parents visited' (depth current) (elems parents) rest;
         visited := visited';
         path := CausalPath.mk
                   (CausalPath.OutputID p)
                   (slice_append (CausalPath.Nodes p) node)
                   (fold_left slice_append (elems edges) (CausalPath.Edges p))
                   (max (CausalPath.Depth p) (depth current))
                   (CausalPath.TotalLatencyMs p)
                   (CausalPath.TracedAt p);
         world := w' |}
  end.

(** [len(queue) > 0 && path.Depth <= maxDepth] *)
Definition trace_guard (maxDepth : Z) (st : LoopState) : bool :=
  (0 <? Z.of_nat (length (queue st))) && (CausalPath.Depth (path st) <=? maxDepth).

(** The [for] loop; [fuel] bounds the number of passes and [None] means
    that it ran out before the guard failed. *)
Fixpoint trace_loop (fuel : nat) (maxDepth : Z) (st : LoopState)
    : option LoopState :=
  if trace_guard maxDepth st then
    match fuel with
    | O => None
    | S fuel' => trace_loop fuel' maxDepth (trace_step st)
    end
  else Some st.

Definition trace_init (w : World) (outputID : string) : LoopState :=
  let '(now, w1) := time_Now w in
  {| queue := [{| id := outputID; nodeType := "external_output"; depth := 0 |}];
     visited := ∅;
     path := CausalPath.mk outputID make0 make0 0 float64_zero now;
     world := w1 |}.

Definition TraceCausalityWith (fuel : nat) (w : World) (outputID : string)
    (maxDepth : Z) : option ((CausalPath.t * error) * World) :=
  let maxDepth := normalize maxDepth 100 in
  match trace_loop fuel maxDepth (trace_init w outputID) with
  | Some st => Some ((path st, nil_error), world st)
  | None => None
  end.

End Traversal.

(** [getParentNodes]: the placeholder of the source, which returns
    [nil, nil] for every node. *)
Definition getParentNodes {C} (s : CausalQueryService C) (ctx : Context)
    (nodeID nodeType : string) : slice CausalNode.t * slice CausalEdge.t :=
  (nil_slice, nil_slice).

Definition TraceCausality {C} (fuel : nat) (s : CausalQueryService C)
    (ctx : Context) (w : World) (outputID : string) (maxDepth : Z)
    : option ((CausalPath.t * error) * World) :=
  TraceCausalityWith (getParentNodes s ctx) fuel w outputID maxDepth.

(** ** The other queries *)

(** [FindEmergentPatterns]: the aggregation is left as a comment in the
    source; the body normalizes [minOccurrences] and returns an empty,
    non-nil slice. The source assigns the default to the parameter and does
    not read it again, so the body carries, as its first component, the
    value that [minOccurrences] holds when it returns. *)
Definition FindEmergentPatterns_body {C} (s : CausalQueryService C)
    (ctx : Context) (w : World) (startTime endTime : Time) (minOccurrences : Z)
    : Z * ((slice EmergentPatternResult.t * error) * World) :=
  let minOccurrences := normalize minOccurrences 5 in
  let results : slice EmergentPatternResult.t := make0 in
  (minOccurrences, ((results, nil_error), w)).

(** What the caller receives. *)
Definition FindEmergentPatterns {C} (s : CausalQueryService C) (ctx : Context)
    (w : World) (startTime endTime : Time) (minOccurrences : Z)
    : (slice EmergentPatternResult.t * error) * World :=
  (FindEmergentPatterns_body s ctx w startTime endTime minOccurrences).2.

Definition GetAgentDecisionPath {C} (s : CausalQueryService C) (ctx : Context)
    (w : World) (agentID actionID : string)
    : (AgentDecisionPath.t * error) * World :=
  let path := AgentDecisionPath.mk agentID actionID make0 make0 make0 make0 0 in
  ((path, nil_error), w).

(** [QueryByPatternHash]: the parameter [limit] is normalized and not read
    again; the body carries, as its first component, the value that [limit]
    holds when it returns. *)
Definition QueryByPatternHash_body {C} (s : CausalQueryService C)
    (ctx : Context) (w : World) (patternHash : string) (limit : Z)
    : Z * ((slice CausalNode.t * error) * World) :=
  let limit := normalize limit 100 in
  (limit, ((nil_slice, nil_error), w)).

Definition QueryByPatternHash {C} (s : CausalQueryService C) (ctx : Context)
    (w : World) (patternHash : string) (limit : Z)
    : (slice CausalNode.t * error) * World :=
  (QueryByPatternHash_body s ctx w patternHash limit).2.

Definition buildInferencePath {C} (s : CausalQueryService C) (ctx : Context)
    (w : World) (inferenceID : string) : (CausalPath.t * error) * World :=
  let '(now, w1) := time_Now w in
  let path := CausalPath.mk inferenceID make0 make0 0 float64_zero now in
  ((path, nil_error), w1).

Definition QueryByInferenceID {C} (s : CausalQueryService C) (ctx : Context)
    (w : World) (inferenceID : string) : (CausalPath.t * error) * World :=
  buildInferencePath s ctx w inferenceID.

(** ** Derived views on a path *)

Definition GetSpikeEvents (p : CausalPath.t) : slice CausalNode.t :=
  fold_left
    (fun events node =>
       if decide (CausalNode.Type_ node = "spike_event")
       then slice_append events node else events)
    (elems (CausalPath.Nodes p)) make0.

Definition GetDecisions (p : CausalPath.t) : slice CausalNode.t :=
  fold_left
    (fun decisions node =>
       if decide (CausalNode.Type_ node = "routing_decision")
       then slice_append decisions node else decisions)
    (elems (CausalPath.Nodes p)) make0.

(** [counts[node.Type]++] on a map whose missing keys read as 0. *)
Definition CountByType (p : CausalPath.t) : gmap string Z :=
  fold_left
    (fun counts node =>
       <[CausalNode.Type_ node :=
           int_add (default 0 (counts !! CausalNode.Type_ node)) 1]> counts)
    (elems (CausalPath.Nodes p)) ∅.

(** ** Vocabulary of the properties *)

(** The synthetic root node of a trace. *)
Definition root_node (outputID : string) (ts : Time) : CausalNode.t :=
  CausalNode.mk outputID "external_output" ts 0 None.

(** Nodes of one type, and how many there are. *)
Definition nodes_of_type (ty : string) (l : list CausalNode.t)
    : list CausalNode.t :=
  filter (fun n => CausalNode.Type_ n = ty) l.

Definition count_of_type (ty : string) (l : list CausalNode.t) : nat :=
  length (nodes_of_type ty l).

(** How often an id occurs in a node list. *)
Definition occurrences (x : string) (l : list CausalNode.t) : nat :=
  length (filter (fun n => CausalNode.ID n = x) l).

(** What a map of counts holds for a type that occurs [c] times: no entry
    when [c] is 0. *)
Definition count_entry (c : nat) : option Z :=
  match c with
  | O => None
  | S _ => Some (Z.of_nat c)
  end.

(** An id exists in the store. *)
Definition in_store (st : Store) (x : string) : Prop :=
  is_Some (entities st !! x).

(** ** The graph a walk discovers *)

Definition st_nodes (st : LoopState) : list CausalNode.t :=
  elems (CausalPath.Nodes (path st)).

Definition st_edges (st : LoopState) : list CausalEdge.t :=
  elems (CausalPath.Edges (path st)).

Definition st_depth (st : LoopState) : Z := CausalPath.Depth (path st).

Definition node_ids (l : list CausalNode.t) : list string :=
  CausalNode.ID <$> l.

Section Discovered.

Variable fetch : string -> string -> slice CausalNode.t * slice CausalEdge.t.

(** What the fetch made for a recorded node reports. *)
Definition parents_of (n : CausalNode.t) : list CausalNode.t :=
  elems (fetch (CausalNode.ID n) (CausalNode.Type_ n)).1.

Definition edges_of (n : CausalNode.t) : list CausalEdge.t :=
  elems (fetch (CausalNode.ID n) (CausalNode.Type_ n)).2.

(** A discovered parent edge: the node with id [c] is recorded and its fetch
    reported a parent with id [p]. *)
Definition discovered (nodes : list CausalNode.t) (c p : string) : Prop :=
  exists n q, n ∈ nodes /\ CausalNode.ID n = c /\
              q ∈ parents_of n /\ CausalNode.ID q = p.

(** [hops nodes root k x]: [x] is [k] discovered parent edges away from the
    root. *)
Inductive hops (nodes : list CausalNode.t) (root : string)
    : nat -> string -> Prop :=
| hops_root : hops nodes root 0 root
| hops_next k c p :
    hops nodes root k c -> discovered nodes c p -> hops nodes root (S k) p.

(** [d] is the breadth-first distance of [x]: some chain of [d] hops reaches
    it and none is shorter. *)
Definition bfs_distance (nodes : list CausalNode.t) (root x : string)
    (d : nat) : Prop :=
  hops nodes root d x /\ forall k, hops nodes root k x -> (d <= k)%nat.

(** The queue entry made for a parent found from depth [d]. *)
Definition parent_item (d : Z) (parent : CausalNode.t) : QueueItem :=
  {| id := CausalNode.ID parent;
     nodeType := CausalNode.Type_ parent;
     depth := int_add d 1 |}.

(** The node recorded for a queue entry at time [ts]. *)
Definition node_of_item (ts : Time) (it : QueueItem) : CausalNode.t :=
  CausalNode.mk (id it) (nodeType it) ts (depth it) None.

(** Size of the unfolding of the parents of a node down to [n] levels: a
    bound on the passes that a queue entry can cause. *)
Fixpoint cost (n : nat) (x ty : string) : nat :=
  match n with
  | O => 1
  | S n' =>
    S (foldr (fun q acc => (cost n' (CausalNode.ID q) (CausalNode.Type_ q) + acc)%nat)
             O (elems (fetch x ty).1))
  end.

Definition weight (maxDepth : Z) (it : QueueItem) : nat :=
  cost (Z.to_nat (maxDepth + 1 - depth it)) (id it) (nodeType it).

Definition queue_weight (maxDepth : Z) (q : list QueueItem) : nat :=
  foldr (fun it acc => (weight maxDepth it + acc)%nat) O q.

(** Passes left before the loop stops. *)
Definition loop_measure (maxDepth : Z) (st : LoopState) : nat :=
  if st_depth st <=? maxDepth then S (queue_weight maxDepth (queue st)) else O.

(** Fuel that lets a trace from [outputID] run to its end. *)
Definition trace_fuel (outputID : string) (maxDepth : Z) : nat :=
  S (cost (Z.to_nat (normalize maxDepth 100 + 1)) outputID "external_output").

(** The loop invariant of the walk from [root] under ceiling [m]. *)
Record trace_inv (root : string) (m : Z) (st : LoopState) : Prop := {
  inv_visited : forall x,
    visited_get (visited st) x = true <-> x ∈ node_ids (st_nodes st);
  inv_nodup : NoDup (node_ids (st_nodes st));
  inv_depth_pos : 0 <= st_depth st;
  inv_ceiling : st_depth st <= m + 1;
  inv_depth_range : forall n,
    n ∈ st_nodes st -> 0 <= CausalNode.Depth n <= st_depth st;
  inv_depth_max :
    (st_nodes st = [] /\ st_depth st = 0) \/
    (exists n, n ∈ st_nodes st /\ CausalNode.Depth n = st_depth st);
  inv_len : st_depth st <= Z.of_nat (length (st_nodes st));
  inv_queue : exists A B, queue st = A ++ B /\
    (forall it, it ∈ A -> depth it = st_depth st) /\
    (forall it, it ∈ B -> depth it = st_depth st + 1);
  inv_links : forall n q, n ∈ st_nodes st -> q ∈ parents_of n ->
    (exists n', n' ∈ st_nodes st /\ CausalNode.ID n' = CausalNode.ID q /\
                CausalNode.Depth n' <= CausalNode.Depth n + 1) \/
    (visited_get (visited st) (CausalNode.ID q) = false /\
     exists it, it ∈ queue st /\ id it = CausalNode.ID q /\
                depth it = CausalNode.Depth n + 1);
  inv_edges : forall n e,
    n ∈ st_nodes st -> e ∈ edges_of n -> e ∈ st_edges st;
  inv_reach_nodes : forall n, n ∈ st_nodes st ->
    hops (st_nodes st) root (Z.to_nat (CausalNode.Depth n)) (CausalNode.ID n);
  inv_reach_queue : forall it, it ∈ queue st ->
    (id it = root /\ depth it = 0) \/
    (exists n, n ∈ st_nodes st /\ depth it = CausalNode.Depth n + 1 /\
               discovered (st_nodes st) (CausalNode.ID n) (id it));
  inv_root :
    (st_nodes st = [] /\
     exists ty, queue st = [{| id := root; nodeType := ty; depth := 0 |}]) \/
    (exists n, n ∈ st_nodes st /\ CausalNode.ID n = root /\
               CausalNode.Depth n = 0)
}.

End Discovered.

(** What C4 says of a path traced from [root]: the depth of every node is
    its breadth-first distance, and the depth of the path is the largest
    depth among the nodes. *)
Definition depths_are_distances
    (fetch : string -> string -> slice CausalNode.t * slice CausalEdge.t)
    (root : string) (p : CausalPath.t) : Prop :=
  (forall n, n ∈ elems (CausalPath.Nodes p) ->
     0 <= CausalNode.Depth n /\
     bfs_distance fetch (elems (CausalPath.Nodes p)) root
       (CausalNode.ID n) (Z.to_nat (CausalNode.Depth n))) /\
  (forall n, n ∈ elems (CausalPath.Nodes p) ->
     CausalNode.Depth n <= CausalPath.Depth p) /\
  (exists n, n ∈ elems (CausalPath.Nodes p) /\
             CausalNode.Depth n = CausalPath.Depth p).

(** Two distinct children share one causal parent in the store. *)
Definition fan_in (st : Store) (c1 c2 p : string) : Prop :=
  c1 <> c2 /\ (c1, p) ∈ causes st /\ (c2, p) ∈ causes st.

(** Spike events of one fingerprint inside a time window. *)
Definition pattern_count (st : Store) (startTime endTime : Time)
    (hash : string) : nat :=
  length (filter (fun e => startTime <= se_timestamp e <= endTime /\
                           se_pattern_hash e = hash)
                 (spike_events st)).

Definition reported (r : slice EmergentPatternResult.t) : list string :=
  EmergentPatternResult.PatternHash <$> elems r.

(** The order of a pattern result: more occurrences first, then the more
    recent last occurrence. *)
Definition pattern_before (a b : EmergentPatternResult.t) : Prop :=
  EmergentPatternResult.OccurrenceCount a > EmergentPatternResult.OccurrenceCount b \/
  (EmergentPatternResult.OccurrenceCount a = EmergentPatternResult.OccurrenceCount b /\
   EmergentPatternResult.LastSeen a >= EmergentPatternResult.LastSeen b).

(** ** Sample data *)

Definition service : CausalQueryService unit := NewCausalQueryService tt.

Definition world_of (st : Store) : World :=
  {| store := st; wall := Z.of_nat; ticks := O |}.

Definition empty_store : Store :=
  {| entities := ∅; causes := []; spike_events := [] |}.

(** One output traced back through one workflow and one action to two
    decisions that share a spike event, and one output without a cause. *)
Definition fanin_store : Store :=
  {| entities :=
       <["out-1" := "external_output"]>
       (<["wf-1" := "workflow_execution"]>
       (<["act-1" := "agent_action"]>
       (<["dec-1" := "routing_decision"]>
       (<["dec-2" := "routing_decision"]>
       (<["spike-1" := "spike_event"]>
       (<["out-2" := "external_output"]> ∅))))));
     causes := [("out-1", "wf-1"); ("wf-1", "act-1"); ("act-1", "dec-1");
                ("act-1", "dec-2"); ("dec-1", "spike-1"); ("dec-2", "spike-1")];
     spike_events := [] |}.

(** Modelled from the spec: [GetParents] of the store contract, the fetch
    that a store-backed [getParentNodes] would make. It serves as a sample
    fetch with parents; the source never calls the store. *)
Definition store_parents (st : Store) (nodeID nodeType : string)
    : slice CausalNode.t * slice CausalEdge.t :=
  let found := filter (fun e => e.1 = nodeID) (causes st) in
  let kind := fun x => default "" (entities st !! x) in
  (mk_slice ((fun e => CausalNode.mk e.2 (kind e.2) 0 0 None) <$> found),
   mk_slice ((fun e => CausalEdge.mk e.2 (kind e.2) nodeID nodeType
                         "caused" 4607182418800017408) <$> found)).

Definition sample_trace (maxDepth : Z)
    : option ((CausalPath.t * error) * World) :=
  TraceCausalityWith (store_parents fanin_store) 20 (world_of fanin_store)
    "out-1" maxDepth.

Definition sample_path : CausalPath.t :=
  Eval vm_compute in
    match sample_trace 100 with
    | Some ((p, _), _) => p
    | None => CausalPath.mk "" nil_slice nil_slice 0 0 0
    end.

Definition sample_world : World :=
  {| store := fanin_store; wall := Z.of_nat; ticks := 7%nat |}.

(** A path with two spike events, one decision and one action. *)
Definition mixed_path : CausalPath.t :=
  CausalPath.mk "out-1"
    (mk_slice [CausalNode.mk "act-1" "agent_action" 0 1 None;
               CausalNode.mk "dec-1" "routing_decision" 0 2 None;
               CausalNode.mk "spike-1" "spike_event" 0 3 None;
               CausalNode.mk "spike-2" "spike_event" 0 3 None])
    make0 3 float64_zero 0.

Definition spike (i : string) (ts : Time) (hash : string) : SpikeEvent :=
  {| se_id := i; se_timestamp := ts; se_population_id := "pop-1";
     se_neuron_indices := [1; 2; 3]; se_pattern_hash := hash |}.

(** Fingerprint A three times and fingerprint B seven times between the
    instants 0 and 100. *)
Definition pattern_store : Store :=
  {| entities := ∅; causes := [];
     spike_events :=
       [spike "a1" 10 "A"; spike "b1" 11 "B"; spike "b2" 12 "B";
        spike "a2" 20 "A"; spike "b3" 21 "B"; spike "b4" 22 "B";
        spike "a3" 30 "A"; spike "b5" 31 "B"; spike "b6" 32 "B";
        spike "b7" 40 "B"] |}.

(** ** Further invariants of the walk *)

(** What the loop keeps of the clock and of the fields it never assigns. *)
Definition clock_inv (w : World) (outputID : string) (st : LoopState) : Prop :=
  wall (world st) = wall w /\
  ticks (world st) = (S (ticks w) + length (st_nodes st))%nat /\
  (forall i n, st_nodes st !! i = Some n ->
     CausalNode.Timestamp n = wall w (S (ticks w) + i)%nat /\
     CausalNode.Metadata n = None) /\
  CausalPath.TracedAt (path st) = wall w (ticks w) /\
  CausalPath.OutputID (path st) = outputID /\
  CausalPath.TotalLatencyMs (path st) = float64_zero /\
  is_nil (CausalPath.Edges (path st)) = false /\
  is_nil (CausalPath.Nodes (path st)) = false.

(** A node that the fetch for [c] reported, with its id and its type. *)
Definition reported_by
    (fetch : string -> string -> slice CausalNode.t * slice CausalEdge.t)
    (c n : CausalNode.t) : Prop :=
  exists q, q ∈ parents_of fetch c /\
            CausalNode.ID q = CausalNode.ID n /\
            CausalNode.Type_ q = CausalNode.Type_ n.

(** Where every queue entry and every recorded node comes from. *)
Definition origin_inv
    (fetch : string -> string -> slice CausalNode.t * slice CausalEdge.t)
    (outputID : string) (st : LoopState) : Prop :=
  (forall it, it ∈ queue st ->
     it = {| id := outputID; nodeType := "external_output"; depth := 0 |} \/
     exists c q, c ∈ st_nodes st /\ q ∈ parents_of fetch c /\
                 it = parent_item (CausalNode.Depth c) q) /\
  (forall n, n ∈ st_nodes st ->
     (CausalNode.ID n = outputID /\ CausalNode.Type_ n = "external_output" /\
      CausalNode.Depth n = 0) \/
     exists c, c ∈ st_nodes st /\ reported_by fetch c n /\
               CausalNode.Depth n = int_add (CausalNode.Depth c) 1).

(** The nodes are in level order: the depth of the last one is the running
    depth, and from one node to the next the depth stays or grows by one. *)
Definition level_inv (st : LoopState) : Prop :=
  (forall n, last (st_nodes st) = Some n -> CausalNode.Depth n = st_depth st) /\
  (forall i a b, st_nodes st !! i = Some a -> st_nodes st !! S i = Some b ->
     CausalNode.Depth a <= CausalNode.Depth b <= CausalNode.Depth a + 1).

(** Only the node recorded last can lie above the ceiling [m]. *)
Definition overshoot_inv (m : Z) (st : LoopState) : Prop :=
  (forall n, n ∈ st_nodes st -> CausalNode.Depth n <= st_depth st) /\
  (forall i n, st_nodes st !! i = Some n ->
     (S i < length (st_nodes st))%nat -> CausalNode.Depth n <= m).

(** A fetch over a cycle: a and b are parents of each other, and a is the
    parent of the output. *)
Definition cyclic_fetch (nodeID nodeType : string)
    : slice CausalNode.t * slice CausalEdge.t :=
  if decide (nodeID = "out") then
    (mk_slice [CausalNode.mk "a" "workflow_execution" 0 0 None], nil_slice)
  else if decide (nodeID = "a") then
    (mk_slice [CausalNode.mk "b" "workflow_execution" 0 0 None], nil_slice)
  else if decide (nodeID = "b") then
    (mk_slice [CausalNode.mk "a" "workflow_execution" 0 0 None], nil_slice)
  else (nil_slice, nil_slice).

(** The sample graph traced under the ceiling 1. *)
Definition shallow_path : CausalPath.t :=
  Eval vm_compute in
    match sample_trace 1 with
    | Some ((p, _), _) => p
    | None => CausalPath.mk "" nil_slice nil_slice 0 0 0
    end.

Definition shallow_world : World :=
  {| store := fanin_store; wall := Z.of_nat; ticks := 4%nat |}.

(** What [CountByType] holds for a type that occurs [c] times, with the
    count as the [int] it is. *)
Definition count_entry_int (c : nat) : option Z :=
  match c with
  | O => None
  | S _ => Some (wrap (Z.of_nat c))
  end.

(** The sum of the counts of a map. *)
Definition total_count (m : gmap string Z) : Z :=
  map_fold (fun _ v acc => v + acc) 0 m.

(** ** The query text of TraceCausalitySQL *)

(** The three pieces of the format string, around [%s] and [%d]. *)
Definition sql_head : string := "
		WITH RECURSIVE causal_chain AS (
			-- Base case: start with the output
			SELECT 
				id, 
				'external_output' as node_type,
				0 as depth
			FROM external_outputs
			WHERE id = '".

Definition sql_body : string := "'
			
			UNION ALL
			
			-- Recursive case: follow edges backwards
			SELECT 
				CASE 
					WHEN cc.node_type = 'external_output' THEN we.id
					WHEN cc.node_type = 'workflow_execution' THEN aa.id
					WHEN cc.node_type = 'agent_action' THEN rd.id
					WHEN cc.node_type = 'routing_decision' THEN se.id
				END as id,
				CASE 
					WHEN cc.node_type = 'external_output' THEN 'workflow_execution'
					WHEN cc.node_type = 'workflow_execution' THEN 'agent_action'
					WHEN cc.node_type = 'agent_action' THEN 'routing_decision'
					WHEN cc.node_type = 'routing_decision' THEN 'spike_event'
				END as node_type,
				cc.depth + 1 as depth
			FROM causal_chain cc
			LEFT JOIN workflow_execution_outputs weo ON cc.id = weo.external_output_id
			LEFT JOIN workflow_executions we ON weo.workflow_execution_id = we.id
			LEFT JOIN agent_action_workflows aaw ON we.id = aaw.workflow_execution_id
			LEFT JOIN agent_actions aa ON aaw.agent_action_id = aa.id
			LEFT JOIN routing_decision_actions rda ON aa.id = rda.agent_action_id
			LEFT JOIN routing_decisions rd ON rda.routing_decision_id = rd.id
			LEFT JOIN spike_event_decisions sed ON rd.id = sed.routing_decision_id
			LEFT JOIN spike_events se ON sed.spike_event_id = se.id
			WHERE cc.depth < ".

Definition sql_tail : string := "
		)
		SELECT DISTINCT id, node_type, depth
		FROM causal_chain
		WHERE id IS NOT NULL
		ORDER BY depth, node_type
	".

(** [fmt.Sprintf] with the verbs [%s] for the id, copied as it is, and [%d]
    for the depth, in decimal. *)
Definition TraceCausalitySQL (outputID : string) (maxDepth : Z) : string :=
  sql_head +:+ (outputID +:+ (sql_body +:+ (pretty maxDepth +:+ sql_tail))).

(** How often a character occurs in a string. *)
Fixpoint count_char (c : Ascii.ascii) (s : string) : nat :=
  match s with
  | EmptyString => O
  | String a s' => ((if decide (a = c) then 1 else 0) + count_char c s')%nat
  end.

(** One state extends another: nodes and edges are only appended and the
    depth does not shrink. *)
Definition extends (s1 s2 : LoopState) : Prop :=
  (exists l, st_nodes s2 = st_nodes s1 ++ l) /\
  (exists l, st_edges s2 = st_edges s1 ++ l) /\
  st_depth s1 <= st_depth s2.

(** A fetch over a chain without end: the parent of a node has its id with
    one more letter in front. *)
Definition chain_fetch (nodeID nodeType : string)
    : slice CausalNode.t * slice CausalEdge.t :=
  (mk_slice [CausalNode.mk ("a" +:+ nodeID) "workflow_execution" 0 0 None],
   nil_slice).

(** * Properties *)

(** ** Arithmetic of [int] *)

Lemma wrap_in_range z : in_int z -> wrap z = z.
Proof.
  unfold in_int, min_int, max_int, wrap. intros H.
  rewrite Z.mod_small; lia.
Qed.

Lemma wrap_range z : in_int (wrap z).
Proof.
  unfold in_int, min_int, max_int, wrap.
  pose proof (Z.mod_pos_bound (z + 2 ^ 63) (2 ^ 64)). lia.
Qed.

Lemma int_add_1 d : min_int <= d < max_int -> int_add d 1 = d + 1.
Proof.
  intros H. unfold int_add. apply wrap_in_range. unfold in_int. lia.
Qed.

Lemma max_spec a b : max a b = Z.max a b.
Proof. unfold max. destruct (Z.gtb_spec a b); lia. Qed.

Lemma normalize_default x dflt : x <= 0 -> normalize x dflt = dflt.
Proof. unfold normalize. intros H. destruct (Z.leb_spec x 0); [done | lia]. Qed.

Lemma normalize_keep x dflt : 0 < x -> normalize x dflt = x.
Proof. unfold normalize. intros H. destruct (Z.leb_spec x 0); [lia | done]. Qed.

Lemma normalize_pos x dflt : 0 < dflt -> 0 < normalize x dflt.
Proof. unfold normalize. intros H. destruct (Z.leb_spec x 0); lia. Qed.

(** ** Slices *)

Lemma elems_fold_append {A} (l : list A) (s : slice A) :
  elems (fold_left slice_append l s) = elems s ++ l.
Proof.
  revert s. induction l as [|x l IH]; intros s; simpl.
  - by rewrite app_nil_r.
  - rewrite IH. simpl. by rewrite <- app_assoc.
Qed.

(** ** A root without parents *)

Section RootOnly.

Variable fetch : string -> string -> slice CausalNode.t * slice CausalEdge.t.

(** When the fetch reports nothing for the root, the loop makes one pass and
    stops on the empty queue. *)
Lemma TraceCausalityWith_leaf fuel w outputID maxDepth :
  elems (fetch outputID "external_output").1 = [] ->
  elems (fetch outputID "external_output").2 = [] ->
  TraceCausalityWith fetch (S fuel) w outputID maxDepth =
    Some ((CausalPath.mk outputID
             (mk_slice [root_node outputID (wall w (S (ticks w)))])
             (mk_slice []) 0 float64_zero (wall w (ticks w)),
           nil_error),
          {| store := store w; wall := wall w; ticks := S (S (ticks w)) |}).
Proof.
  intros Hp He. unfold TraceCausalityWith.
  pose proof (normalize_pos maxDepth 100 ltac:(lia)) as Hm.
  set (m := normalize maxDepth 100) in *.
  cbn [trace_loop trace_init time_Now].
  unfold trace_guard at 1. cbn [queue path CausalPath.Depth length].
  replace (0 <=? m) with true by (symmetry; apply Z.leb_le; lia).
  cbn [andb Z.ltb Z.of_nat Z.compare Pos.of_succ_nat].
  unfold trace_step. cbn [queue visited id nodeType depth path world].
  unfold visited_get at 1. rewrite lookup_empty. cbn [default].
  destruct (fetch outputID "external_output") as [parents edges] eqn:Hf.
  simpl in Hp, He. rewrite Hp, He.
  cbn [time_Now enqueue_parents fold_left store wall ticks].
  destruct fuel; reflexivity.
Qed.

End RootOnly.

Lemma TraceCausality_unfold {C} fuel (s : CausalQueryService C) ctx w
    outputID maxDepth :
  TraceCausality (S fuel) s ctx w outputID maxDepth =
    Some ((CausalPath.mk outputID
             (mk_slice [root_node outputID (wall w (S (ticks w)))])
             (mk_slice []) 0 float64_zero (wall w (ticks w)),
           nil_error),
          {| store := store w; wall := wall w; ticks := S (S (ticks w)) |}).
Proof. unfold TraceCausality. by apply TraceCausalityWith_leaf. Qed.

(** ** The visited set *)

Lemma visited_get_insert v k x :
  visited_get (<[k := true]> v) x = true <-> x = k \/ visited_get v x = true.
Proof.
  unfold visited_get. destruct (decide (k = x)) as [->|Hne].
  - rewrite lookup_insert_eq. simpl. split; [by left | done].
  - rewrite lookup_insert_ne by done. split; [by right |].
    by intros [->|?].
Qed.

Lemma visited_get_insert_false v k x :
  visited_get (<[k := true]> v) x = false <-> x <> k /\ visited_get v x = false.
Proof.
  unfold visited_get. destruct (decide (k = x)) as [->|Hne].
  - rewrite lookup_insert_eq. simpl. split; [done | by intros [? _]].
  - rewrite lookup_insert_ne by done. split; [| by intros [_ ?]].
    intros ?. split; [| done]. by intros ->.
Qed.

(** ** One pass of the loop *)

Section Walk.

Variable fetch : string -> string -> slice CausalNode.t * slice CausalEdge.t.

Lemma enqueue_parents_filter v d parents q :
  enqueue_parents v d parents q =
  q ++ (parent_item d <$>
         filter (fun p => visited_get v (CausalNode.ID p) = false) parents).
Proof.
  unfold enqueue_parents. revert q.
  induction parents as [|p ps IH]; intros q; simpl.
  - by rewrite app_nil_r.
  - rewrite IH, filter_cons.
    destruct (visited_get v (CausalNode.ID p)) eqn:Hv.
    + rewrite decide_False by done. done.
    + rewrite decide_True by done. simpl. by rewrite <- app_assoc.
Qed.

Lemma guard_true m st :
  trace_guard m st = true ->
  (exists cur rest, queue st = cur :: rest) /\ st_depth st <= m.
Proof.
  unfold trace_guard, st_depth. intros H.
  apply andb_true_iff in H as [Hq Hd].
  apply Z.ltb_lt in Hq. apply Z.leb_le in Hd.
  split; [| done].
  destruct (queue st) as [|cur rest]; [simpl in Hq; lia | eauto].
Qed.

Lemma guard_false m st :
  trace_guard m st = false -> queue st = [] \/ m < st_depth st.
Proof.
  unfold trace_guard, st_depth. intros H.
  apply andb_false_iff in H as [Hq | Hd].
  - left. apply Z.ltb_ge in Hq.
    destruct (queue st); [done | simpl in Hq; lia].
  - right. by apply Z.leb_gt in Hd.
Qed.

(** The pass that meets an id already visited only drops the entry. *)
Lemma step_skip st cur rest :
  queue st = cur :: rest ->
  visited_get (visited st) (id cur) = true ->
  trace_step fetch st =
    {| queue := rest; visited := visited st; path := path st;
       world := world st |}.
Proof. intros Hq Hv. unfold trace_step. by rewrite Hq, Hv. Qed.

(** The pass that records a new node. *)
Lemma step_visit st cur rest :
  queue st = cur :: rest ->
  visited_get (visited st) (id cur) = false ->
  let node := node_of_item (wall (world st) (ticks (world st))) cur in
  let st' := trace_step fetch st in
  queue st' =
    rest ++ (parent_item (depth cur) <$>
             filter (fun p => visited_get (<[id cur := true]> (visited st))
                                          (CausalNode.ID p) = false)
                    (parents_of fetch node)) /\
  visited st' = <[id cur := true]> (visited st) /\
  st_nodes st' = st_nodes st ++ [node] /\
  st_edges st' = st_edges st ++ edges_of fetch node /\
  st_depth st' = Z.max (st_depth st) (depth cur) /\
  CausalPath.OutputID (path st') = CausalPath.OutputID (path st) /\
  CausalPath.TracedAt (path st') = CausalPath.TracedAt (path st) /\
  CausalPath.TotalLatencyMs (path st') = CausalPath.TotalLatencyMs (path st) /\
  store (world st') = store (world st).
Proof.
  intros Hq Hv node st'. subst st' node.
  unfold trace_step, parents_of, edges_of, node_of_item, st_nodes, st_edges,
    st_depth.
  rewrite Hq, Hv. cbn [time_Now CausalNode.ID CausalNode.Type_].
  destruct (fetch (id cur) (nodeType cur)) as [parents edges].
  cbn [queue visited path world CausalPath.Nodes CausalPath.Edges
       CausalPath.Depth CausalPath.OutputID CausalPath.TracedAt
       CausalPath.TotalLatencyMs store fst snd].
  rewrite enqueue_parents_filter, elems_fold_append, max_spec.
  repeat split; done.
Qed.

Lemma discovered_mono nodes nodes' c p :
  (forall n, n ∈ nodes -> n ∈ nodes') ->
  discovered fetch nodes c p -> discovered fetch nodes' c p.
Proof.
  intros Hsub (n & q & Hn & Hrest). exists n, q.
  split; [by apply Hsub | exact Hrest].
Qed.

Lemma hops_mono nodes nodes' root k x :
  (forall n, n ∈ nodes -> n ∈ nodes') ->
  hops fetch nodes root k x -> hops fetch nodes' root k x.
Proof.
  intros Hsub H. induction H as [|k c p _ IH Hd].
  - constructor.
  - econstructor; [exact IH |]. by eapply discovered_mono.
Qed.

End Walk.

(** ** The loop invariant *)

Section Invariant.

Variable fetch : string -> string -> slice CausalNode.t * slice CausalEdge.t.
Variable root : string.
Variable m : Z.

Lemma inv_init w : 0 <= m + 1 -> trace_inv fetch root m (trace_init w root).
Proof.
  intros Hm. unfold trace_init. cbn [time_Now].
  constructor; unfold st_nodes, st_edges, st_depth; simpl.
  - intros x. unfold visited_get. rewrite lookup_empty. simpl.
    split; [done | by intros ?%elem_of_nil].
  - constructor.
  - lia.
  - lia.
  - by intros n ?%elem_of_nil.
  - by left.
  - lia.
  - exists [{| id := root; nodeType := "external_output"; depth := 0 |}], [].
    split; [done |]. split.
    + by intros it ->%list_elem_of_singleton.
    + by intros it ?%elem_of_nil.
  - by intros n q ?%elem_of_nil.
  - by intros n e ?%elem_of_nil.
  - by intros n ?%elem_of_nil.
  - intros it ->%list_elem_of_singleton. by left.
  - left. split; [done |]. by eexists.
Qed.

(** The head of the queue is at the running depth or one above it, and no
    entry behind it is shallower. *)
Lemma queue_head (L : Z) (q : list QueueItem) cur rest :
  (exists A B, q = A ++ B /\
     (forall it, it ∈ A -> depth it = L) /\
     (forall it, it ∈ B -> depth it = L + 1)) ->
  q = cur :: rest ->
  (depth cur = L /\
   exists A B, rest = A ++ B /\
     (forall it, it ∈ A -> depth it = L) /\
     (forall it, it ∈ B -> depth it = L + 1)) \/
  (depth cur = L + 1 /\ forall it, it ∈ rest -> depth it = L + 1).
Proof.
  intros (A & B & -> & HA & HB) Hq.
  destruct A as [|a A]; simpl in Hq.
  - right. subst B. split.
    + apply HB. by left.
    + intros it Hit. apply HB. by right.
  - left. injection Hq as Ha Hr. subst a rest. split.
    + apply HA. by left.
    + exists A, B. split; [done |]. split; [| done].
      intros it Hit. apply HA. by right.
Qed.

Lemma inv_skip st cur rest :
  trace_inv fetch root m st ->
  queue st = cur :: rest ->
  visited_get (visited st) (id cur) = true ->
  trace_inv fetch root m (trace_step fetch st).
Proof.
  intros I Hq Hv. rewrite (step_skip fetch st cur rest Hq Hv).
  destruct I as [Ivis Ind Ipos Iceil Irange Imax Ilen Iqueue Ilinks Iedges
                 Irn Irq Iroot].
  constructor; unfold st_nodes, st_edges, st_depth in *; simpl; try done.
  - destruct (queue_head _ _ _ _ Iqueue Hq) as [[_ (A & B & ? & ? & ?)]|[_ H]].
    + by exists A, B.
    + exists [], rest. split; [done |].
      split; [by intros it ?%elem_of_nil | done].
  - intros n q Hn Hqp. destruct (Ilinks n q Hn Hqp) as [?|[Hvq (it & Hit & Hid & Hd)]].
    + by left.
    + right. split; [done |]. exists it. split; [| done].
      rewrite Hq in Hit. apply elem_of_cons in Hit as [->|Hit]; [| done].
      rewrite Hid in Hv. congruence.
  - intros it Hit. apply Irq. rewrite Hq. by right.
  - destruct Iroot as [[Hn (ty & Hq')]|?]; [| by right].
    exfalso. rewrite Hq in Hq'. injection Hq' as -> ->.
    apply Ivis in Hv. rewrite Hn in Hv. by apply elem_of_nil in Hv.
Qed.

Lemma inv_visit st cur rest :
  trace_inv fetch root m st ->
  queue st = cur :: rest ->
  visited_get (visited st) (id cur) = false ->
  st_depth st <= m ->
  depth cur < max_int ->
  trace_inv fetch root m (trace_step fetch st).
Proof.
  intros I Hq Hv Hm Hnw.
  destruct (step_visit fetch st cur rest Hq Hv)
    as (Eq & Ev & En & Ee & Ed & _).
  set (node := node_of_item (wall (world st) (ticks (world st))) cur) in *.
  set (st' := trace_step fetch st) in *.
  destruct I as [Ivis Ind Ipos Iceil Irange Imax Ilen Iqueue Ilinks Iedges
                 Irn Irq Iroot].
  set (L := st_depth st) in *. set (d := depth cur) in *.
  assert (Hhead : (d = L \/ d = L + 1) /\
                  forall it, it ∈ rest -> d <= depth it <= L + 1).
  { destruct (queue_head _ _ _ _ Iqueue Hq) as [[E (A & B & -> & HA & HB)]|[E H]].
    - split; [by left |]. intros it [Hit|Hit]%elem_of_app.
      + rewrite (HA it Hit). fold d in E. lia.
      + rewrite (HB it Hit). fold d in E. lia.
    - split; [by right |]. intros it Hit. rewrite (H it Hit). fold d in E. lia. }
  destruct Hhead as [HdL Hrest].
  assert (Hd' : st_depth st' = d) by lia.
  assert (Hadd : int_add d 1 = d + 1).
  { apply int_add_1. unfold min_int. lia. }
  assert (Hsub : forall n, n ∈ st_nodes st -> n ∈ st_nodes st').
  { intros n Hn. rewrite En. apply elem_of_app. by left. }
  assert (Hnode : node ∈ st_nodes st').
  { rewrite En. apply elem_of_app. right. by apply list_elem_of_singleton. }
  assert (Hvis' : forall x,
    visited_get (visited st') x = true <-> x ∈ node_ids (st_nodes st')).
  { intros x. rewrite Ev, En. unfold node_ids. rewrite fmap_app, elem_of_app.
    simpl. rewrite visited_get_insert, list_elem_of_singleton.
    specialize (Ivis x). unfold node_ids in Ivis. tauto. }
  assert (Hrange' : forall n,
    n ∈ st_nodes st' -> 0 <= CausalNode.Depth n <= st_depth st').
  { intros n. rewrite En. intros [Hn|Hn]%elem_of_app.
    - specialize (Irange n Hn). lia.
    - apply list_elem_of_singleton in Hn as ->. simpl. fold d. lia. }
  constructor.
  - exact Hvis'.
  - rewrite En. unfold node_ids. rewrite fmap_app. apply NoDup_app.
    split; [exact Ind |]. split; [| apply NoDup_singleton].
    intros x Hx ->%list_elem_of_singleton. simpl in Hv.
    apply Ivis in Hx. simpl in Hx. congruence.
  - lia.
  - lia.
  - exact Hrange'.
  - right. exists node. split; [done |]. simpl. fold d. lia.
  - rewrite En, length_app. simpl. lia.
  - rewrite Eq, Hd'.
    destruct (queue_head _ _ _ _ Iqueue Hq) as [[E (A & B & -> & HA & HB)]|[E H]];
      fold d L in E.
    + exists A, (B ++ (parent_item d <$>
        filter (fun p => visited_get (<[id cur:=true]> (visited st))
                                     (CausalNode.ID p) = false)
               (parents_of fetch node))).
      split; [by rewrite app_assoc |]. split.
      * intros it Hit. rewrite (HA it Hit). lia.
      * intros it [Hit|Hit]%elem_of_app.
        -- rewrite (HB it Hit). lia.
        -- apply list_elem_of_fmap in Hit as (q & -> & _). simpl. lia.
    + eexists rest, _. split; [reflexivity |]. split.
      * intros it Hit. rewrite (H it Hit). lia.
      * intros it Hit.
        apply list_elem_of_fmap in Hit as (q & -> & _). simpl. lia.
  - intros n q. rewrite En at 1.
    intros [Hn|Hn]%elem_of_app Hqp;
      [| apply list_elem_of_singleton in Hn as ->].
    + destruct (Ilinks n q Hn Hqp)
        as [(n' & Hn' & Hid & Hdep)|[Hvq (it & Hit & Hid & Hdep)]].
      * left. exists n'. split; [by apply Hsub | done].
      * rewrite Hq in Hit.
        destruct (decide (CausalNode.ID q = id cur)) as [Heq|Hne].
        -- left. exists node. split; [done |]. split; [by rewrite Heq |].
           simpl. fold d. rewrite <- Hdep.
           apply elem_of_cons in Hit as [->|Hit]; [fold d; lia |].
           specialize (Hrest it Hit). lia.
        -- right. split.
           ++ rewrite Ev. by apply visited_get_insert_false.
           ++ exists it. split; [| done]. rewrite Eq. apply elem_of_app. left.
              apply elem_of_cons in Hit as [->|Hit]; [| done]. by rewrite Hid in Hne.
    + destruct (visited_get (visited st') (CausalNode.ID q)) eqn:Hvq.
      * left. apply Hvis' in Hvq. unfold node_ids in Hvq.
        apply list_elem_of_fmap in Hvq as (n' & Hid & Hn').
        exists n'. split; [done |]. split; [done |].
        specialize (Hrange' n' Hn'). simpl. fold d. lia.
      * right. split; [done |]. exists (parent_item d q).
        split; [| simpl; fold d; split; [done | lia]].
        rewrite Eq. apply elem_of_app. right.
        apply list_elem_of_fmap. exists q. split; [done |].
        apply list_elem_of_filter. split; [| done]. by rewrite <- Ev.
  - intros n e. rewrite En, Ee.
    intros [Hn|Hn]%elem_of_app He; apply elem_of_app.
    + left. by eapply Iedges.
    + apply list_elem_of_singleton in Hn as ->. by right.
  - intros n. rewrite En at 1.
    intros [Hn|Hn]%elem_of_app; [| apply list_elem_of_singleton in Hn as ->].
    + eapply hops_mono; [exact Hsub |]. by apply Irn.
    + assert (Hcur : cur ∈ queue st) by (rewrite Hq; by left).
      destruct (Irq cur Hcur) as [[Hid Hdep]|(n0 & Hn0 & Hdep & Hdisc)].
      * simpl. rewrite Hid, Hdep. constructor.
      * simpl. rewrite Hdep.
        replace (Z.to_nat (CausalNode.Depth n0 + 1))
          with (S (Z.to_nat (CausalNode.Depth n0)))
          by (specialize (Irange n0 Hn0); lia).
        econstructor.
        -- eapply hops_mono; [exact Hsub |]. by apply Irn.
        -- by eapply discovered_mono.
  - intros it. rewrite Eq. intros [Hit|Hit]%elem_of_app.
    + assert (Hin : it ∈ queue st) by (rewrite Hq; by right).
      destruct (Irq it Hin) as [?|(n0 & Hn0 & Hdep & Hdisc)]; [by left |].
      right. exists n0. split; [by apply Hsub |]. split; [done |].
      by eapply discovered_mono.
    + apply list_elem_of_fmap in Hit as (q & -> & Hqf).
      apply list_elem_of_filter in Hqf as [_ Hqp].
      right. exists node. split; [done |]. split; [simpl; fold d; lia |].
      exists node, q. done.
  - right. destruct Iroot as [[Hn (ty & Hq')]|(n & Hn & Hid & Hdep)].
    + rewrite Hq in Hq'. injection Hq' as Hc _. exists node.
      split; [done |]. subst node. rewrite Hc. done.
    + exists n. split; [by apply Hsub | done].
Qed.

End Invariant.

(** ** The whole loop *)

Section Loop.

Variable fetch : string -> string -> slice CausalNode.t * slice CausalEdge.t.

Lemma step_nodes_grow st :
  exists l, st_nodes (trace_step fetch st) = st_nodes st ++ l.
Proof.
  destruct (queue st) as [|cur rest] eqn:Hq.
  - exists []. unfold trace_step. rewrite Hq. by rewrite app_nil_r.
  - destruct (visited_get (visited st) (id cur)) eqn:Hv.
    + exists []. rewrite (step_skip fetch st cur rest Hq Hv).
      unfold st_nodes. simpl. by rewrite app_nil_r.
    + destruct (step_visit fetch st cur rest Hq Hv) as (_ & _ & En & _).
      eauto.
Qed.

Lemma step_store st : store (world (trace_step fetch st)) = store (world st).
Proof.
  destruct (queue st) as [|cur rest] eqn:Hq.
  - unfold trace_step. by rewrite Hq.
  - destruct (visited_get (visited st) (id cur)) eqn:Hv.
    + by rewrite (step_skip fetch st cur rest Hq Hv).
    + by destruct (step_visit fetch st cur rest Hq Hv)
        as (_ & _ & _ & _ & _ & _ & _ & _ & Hs).
Qed.

Lemma loop_nodes_grow fuel m st stf :
  trace_loop fetch fuel m st = Some stf ->
  exists l, st_nodes stf = st_nodes st ++ l.
Proof.
  revert st. induction fuel as [|fuel IH]; intros st; simpl;
    destruct (trace_guard m st); intros H; try done.
  - injection H as <-. exists []. by rewrite app_nil_r.
  - destruct (IH _ H) as [l Hl].
    destruct (step_nodes_grow st) as [l' Hl'].
    exists (l' ++ l). by rewrite Hl, Hl', app_assoc.
  - injection H as <-. exists []. by rewrite app_nil_r.
Qed.

Lemma loop_store fuel m st stf :
  trace_loop fetch fuel m st = Some stf ->
  store (world stf) = store (world st).
Proof.
  revert st. induction fuel as [|fuel IH]; intros st; simpl;
    destruct (trace_guard m st); intros H; try done.
  - by injection H as <-.
  - rewrite (IH _ H). apply step_store.
  - by injection H as <-.
Qed.

Lemma loop_stops fuel m st stf :
  trace_loop fetch fuel m st = Some stf -> trace_guard m stf = false.
Proof.
  revert st. induction fuel as [|fuel IH]; intros st; simpl;
    destruct (trace_guard m st) eqn:Hg; intros H; try done.
  - by injection H as <-.
  - by eapply IH.
  - by injection H as <-.
Qed.

(** More fuel does not change the outcome of a loop that stopped. *)
Lemma loop_fuel_more fuel fuel' m st stf :
  trace_loop fetch fuel m st = Some stf -> (fuel <= fuel')%nat ->
  trace_loop fetch fuel' m st = Some stf.
Proof.
  revert fuel' st. induction fuel as [|fuel IH]; intros fuel' st; simpl;
    destruct (trace_guard m st) eqn:Hg; intros H Hle; try done.
  - destruct fuel'; simpl; by rewrite Hg.
  - destruct fuel' as [|fuel']; [lia |]. simpl. rewrite Hg.
    apply IH; [done | lia].
  - destruct fuel'; simpl; by rewrite Hg.
Qed.

(** The invariant holds when the loop stops, for every path short enough
    for its depths to stay within [int]. *)
Lemma loop_inv root fuel m st stf :
  trace_loop fetch fuel m st = Some stf ->
  Z.of_nat (length (st_nodes stf)) < max_int ->
  trace_inv fetch root m st ->
  trace_inv fetch root m stf.
Proof.
  revert st. induction fuel as [|fuel IH]; intros st; simpl;
    destruct (trace_guard m st) eqn:Hg; intros H Hlen I; try done.
  - by injection H as <-.
  - apply guard_true in Hg as [(cur & rest & Hq) Hm].
    apply (IH _ H Hlen).
    destruct (visited_get (visited st) (id cur)) eqn:Hv.
    + by eapply inv_skip.
    + eapply inv_visit; try done.
      destruct (loop_nodes_grow _ _ _ _ H) as [l Hl].
      destruct (step_visit fetch st cur rest Hq Hv) as (_ & _ & En & _).
      rewrite Hl, En, !length_app in Hlen. simpl in Hlen.
      pose proof (inv_len _ _ _ _ I) as Ilen.
      destruct (queue_head _ _ _ _ (inv_queue _ _ _ _ I) Hq) as [[E _]|[E _]];
        lia.
  - by injection H as <-.
Qed.

End Loop.

(** ** Termination *)

Section Termination.

Variable fetch : string -> string -> slice CausalNode.t * slice CausalEdge.t.

Lemma cost_pos n x ty : (1 <= cost fetch n x ty)%nat.
Proof. destruct n; simpl; lia. Qed.

Lemma queue_weight_app m a b :
  queue_weight fetch m (a ++ b) =
  (queue_weight fetch m a + queue_weight fetch m b)%nat.
Proof.
  unfold queue_weight. induction a as [|x a IH]; simpl; [done |].
  rewrite IH. lia.
Qed.

Lemma new_items_weight m d (P : CausalNode.t -> Prop)
    `{forall q, Decision (P q)} k (ps : list CausalNode.t) :
  Z.to_nat (m + 1 - int_add d 1) = k ->
  (queue_weight fetch m (parent_item d <$> filter P ps) <=
   foldr (fun q acc =>
            (cost fetch k (CausalNode.ID q) (CausalNode.Type_ q) + acc)%nat)
         O ps)%nat.
Proof.
  intros Hk. induction ps as [|q ps IH]; simpl; [done |].
  rewrite filter_cons. destruct (decide (P q)); simpl.
  - unfold weight at 1. simpl. rewrite Hk.
    apply Nat.add_le_mono_l. exact IH.
  - etrans; [exact IH | lia].
Qed.

Lemma step_measure m st :
  trace_guard m st = true ->
  m < max_int ->
  (forall it, it ∈ queue st -> min_int <= depth it) ->
  (loop_measure fetch m (trace_step fetch st) < loop_measure fetch m st)%nat /\
  (forall it, it ∈ queue (trace_step fetch st) -> min_int <= depth it).
Proof.
  intros Hg Hm Hr. apply guard_true in Hg as [(cur & rest & Hq) HL].
  unfold loop_measure at 2. rewrite Hq.
  replace (st_depth st <=? m) with true by (symmetry; by apply Z.leb_le).
  cbn [queue_weight foldr]. fold (queue_weight fetch m rest).
  pose proof (cost_pos (Z.to_nat (m + 1 - depth cur)) (id cur) (nodeType cur))
    as Hpos. fold (weight fetch m cur) in Hpos.
  assert (Hcur : min_int <= depth cur) by (apply Hr; rewrite Hq; by left).
  assert (Hrest : forall it, it ∈ rest -> min_int <= depth it).
  { intros it Hit. apply Hr. rewrite Hq. by right. }
  destruct (visited_get (visited st) (id cur)) eqn:Hv.
  - rewrite (step_skip fetch st cur rest Hq Hv). unfold loop_measure. simpl.
    split; [| done].
    unfold st_depth in *. simpl.
    destruct (CausalPath.Depth (path st) <=? m); lia.
  - destruct (step_visit fetch st cur rest Hq Hv)
      as (Eq & _ & _ & _ & Ed & _).
    split.
    + unfold loop_measure. rewrite Ed, Eq.
      destruct (Z.leb_spec (Z.max (st_depth st) (depth cur)) m) as [Hle|Hgt];
        [| lia].
      rewrite queue_weight_app.
      assert (Hadd : int_add (depth cur) 1 = depth cur + 1)
        by (apply int_add_1; lia).
      pose proof (new_items_weight m (depth cur)
        (fun p => visited_get (<[id cur:=true]> (visited st))
                              (CausalNode.ID p) = false)
        (Z.to_nat (m - depth cur))
        (parents_of fetch
           (node_of_item (wall (world st) (ticks (world st))) cur))) as Hnew.
      specialize (Hnew ltac:(rewrite Hadd; f_equal; lia)).
      set (new := parent_item (depth cur) <$> filter _ _) in *.
      unfold weight.
      replace (Z.to_nat (m + 1 - depth cur))
        with (S (Z.to_nat (m - depth cur))) by lia.
      cbn [cost].
      change (parents_of fetch
                (node_of_item (wall (world st) (ticks (world st))) cur))
        with (elems (fetch (id cur) (nodeType cur)).1) in Hnew.
      lia.
    + rewrite Eq. intros it [Hit|Hit]%elem_of_app; [by apply Hrest |].
      apply list_elem_of_fmap in Hit as (q & -> & _). simpl.
      apply wrap_range.
Qed.

Lemma loop_terminates m fuel st :
  m < max_int ->
  (forall it, it ∈ queue st -> min_int <= depth it) ->
  (loop_measure fetch m st <= fuel)%nat ->
  exists stf, trace_loop fetch fuel m st = Some stf.
Proof.
  intros Hm. revert st. induction fuel as [|fuel IH]; intros st Hr Hfuel; simpl;
    destruct (trace_guard m st) eqn:Hg; eauto.
  - apply guard_true in Hg as [_ HL]. unfold loop_measure in Hfuel.
    destruct (Z.leb_spec (st_depth st) m); lia.
  - destruct (step_measure m st Hg Hm Hr) as [Hlt Hr'].
    apply IH; [done | lia].
Qed.

(** The walk returns for every ceiling except [math.MaxInt] itself. *)
Lemma TraceCausalityWith_returns w outputID maxDepth fuel :
  normalize maxDepth 100 < max_int ->
  (trace_fuel fetch outputID maxDepth <= fuel)%nat ->
  exists p w', TraceCausalityWith fetch fuel w outputID maxDepth =
               Some ((p, nil_error), w').
Proof.
  intros Hm Hfuel. unfold TraceCausalityWith.
  destruct (loop_terminates (normalize maxDepth 100) fuel (trace_init w outputID))
    as [stf ->]; eauto.
  - unfold trace_init. simpl. intros it ->%list_elem_of_singleton. simpl.
    unfold min_int. lia.
  - unfold trace_fuel in Hfuel. unfold loop_measure, trace_init, st_depth.
    simpl. pose proof (normalize_pos maxDepth 100 ltac:(lia)).
    destruct (Z.leb_spec 0 (normalize maxDepth 100)); [| lia].
    unfold weight. simpl.
    replace (normalize maxDepth 100 + 1 - 0) with (normalize maxDepth 100 + 1)
      by lia.
    lia.
Qed.

End Termination.

(** ** What a returned path satisfies *)

Lemma occurrences_nodup l x :
  NoDup (node_ids l) -> (occurrences x l <= 1)%nat.
Proof.
  unfold occurrences, node_ids. induction l as [|n l IH]; simpl; [lia |].
  intros [Hn Hl]%NoDup_cons. rewrite filter_cons.
  destruct (decide (CausalNode.ID n = x)) as [<-|Hne]; [| by apply IH].
  simpl.
  destruct (filter (fun n' => CausalNode.ID n' = CausalNode.ID n) l)
    as [|n' rest] eqn:E; [simpl; lia |].
  exfalso. assert (n' ∈ filter (fun n' => CausalNode.ID n' = CausalNode.ID n) l)
    as [Heq Hn']%list_elem_of_filter by (rewrite E; by left).
  apply Hn. rewrite <- Heq. apply list_elem_of_fmap. by exists n'.
Qed.

Lemma occurrences_elem l x :
  x ∈ node_ids l -> (1 <= occurrences x l)%nat.
Proof.
  unfold occurrences, node_ids. intros (n & -> & Hn)%list_elem_of_fmap.
  assert (n ∈ filter (fun n' => CausalNode.ID n' = CausalNode.ID n) l) as Hin
    by (by apply list_elem_of_filter).
  destruct (filter _ l); [by apply elem_of_nil in Hin | simpl; lia].
Qed.

Lemma nodup_ids_inj l n n' :
  NoDup (node_ids l) -> n ∈ l -> n' ∈ l ->
  CausalNode.ID n = CausalNode.ID n' -> n = n'.
Proof.
  unfold node_ids. induction l as [|a l IH]; simpl.
  - by intros _ ?%elem_of_nil.
  - intros [Ha Hl]%NoDup_cons [->|Hn]%elem_of_cons [->|Hn']%elem_of_cons Heq;
      try done.
    + exfalso. apply Ha. rewrite Heq. apply list_elem_of_fmap. by exists n'.
    + exfalso. apply Ha. rewrite <- Heq. apply list_elem_of_fmap. by exists n.
    + by apply IH.
Qed.

Section Returned.

Variable fetch : string -> string -> slice CausalNode.t * slice CausalEdge.t.

(** A returned path is the path of a loop state in which the invariant
    holds and the guard fails; the error is [nil] and the store is the one
    the call started with. *)
Lemma TraceCausalityWith_final fuel w outputID maxDepth p e w' :
  TraceCausalityWith fetch fuel w outputID maxDepth = Some ((p, e), w') ->
  len (CausalPath.Nodes p) < max_int ->
  exists stf,
    p = path stf /\ w' = world stf /\ e = nil_error /\
    trace_inv fetch outputID (normalize maxDepth 100) stf /\
    trace_guard (normalize maxDepth 100) stf = false /\
    store w' = store w.
Proof.
  unfold TraceCausalityWith. intros H Hlen.
  destruct (trace_loop _ _ _ _) as [stf|] eqn:Hloop; [| done].
  injection H as <- <- <-. exists stf.
  pose proof (normalize_pos maxDepth 100 ltac:(lia)) as Hm.
  do 3 (split; [done |]). split; [| split].
  - eapply loop_inv; [exact Hloop | exact Hlen |].
    apply inv_init. lia.
  - by eapply loop_stops.
  - by rewrite (loop_store _ _ _ _ _ Hloop).
Qed.

(** In a state that satisfies the invariant no chain of discovered edges
    reaches a recorded node in fewer hops than its depth. *)
Lemma hops_lower_bound root m st k x :
  trace_inv fetch root m st ->
  hops fetch (st_nodes st) root k x ->
  forall n, n ∈ st_nodes st -> CausalNode.ID n = x ->
            CausalNode.Depth n <= Z.of_nat k.
Proof.
  intros I H. induction H as [|k c p Hc IH Hd]; intros n Hn Hid.
  - destruct (inv_root _ _ _ _ I) as [[Hnil _]|(r & Hr & Hrid & Hrd)].
    + rewrite Hnil in Hn. by apply elem_of_nil in Hn.
    + assert (n = r) as ->; [| lia].
      eapply nodup_ids_inj; [by eapply inv_nodup | done | done | congruence].
  - destruct Hd as (n0 & q & Hn0 & Hid0 & Hq & Hqid).
    specialize (IH n0 Hn0 Hid0).
    destruct (inv_links _ _ _ _ I n0 q Hn0 Hq)
      as [(n' & Hn' & Hid' & Hdep)|[Hv _]].
    + assert (n = n') as ->; [| lia].
      eapply nodup_ids_inj; [by eapply inv_nodup | done | done | congruence].
    + exfalso. assert (visited_get (visited st) (CausalNode.ID q) = true);
        [| congruence].
      apply (inv_visited _ _ _ _ I). rewrite Hqid, <- Hid.
      apply list_elem_of_fmap. by exists n.
Qed.

(** When the loop has stopped at least the root is recorded. *)
Lemma stopped_nonempty root m st :
  0 <= m ->
  trace_inv fetch root m st -> trace_guard m st = false ->
  exists n, n ∈ st_nodes st /\ CausalNode.Depth n = st_depth st.
Proof.
  intros Hm I Hg.
  destruct (inv_depth_max _ _ _ _ I) as [[Hnil Hd]|?]; [| done].
  exfalso. destruct (inv_root _ _ _ _ I) as [[_ (ty & Hq)]|(r & Hr & _)].
  - apply guard_false in Hg as [Hg|Hg]; [by rewrite Hq in Hg | lia].
  - rewrite Hnil in Hr. by apply elem_of_nil in Hr.
Qed.

(** With a fetch that reports parents the walk stays within one level above
    the ceiling: the guard is evaluated before an entry is taken from the
    queue, so that the first entry of level [maxDepth + 1] is still
    recorded. *)
Lemma TraceCausalityWith_ceiling fuel w outputID maxDepth p e w' :
  TraceCausalityWith fetch fuel w outputID maxDepth = Some ((p, e), w') ->
  len (CausalPath.Nodes p) < max_int ->
  CausalPath.Depth p <= normalize maxDepth 100 + 1 /\
  forall n, n ∈ elems (CausalPath.Nodes p) ->
            CausalNode.Depth n <= normalize maxDepth 100 + 1.
Proof.
  intros H Hlen.
  destruct (TraceCausalityWith_final fuel w outputID maxDepth p e w' H Hlen)
    as (stf & -> & _ & _ & I & _).
  pose proof (inv_ceiling _ _ _ _ I) as Hc. unfold st_depth in Hc.
  split; [done |]. intros n Hn.
  pose proof (inv_depth_range _ _ _ _ I n Hn) as Hr. unfold st_depth in Hr. lia.
Qed.

End Returned.

(** The sample graph traced through the store-backed fetch: the spike
    event that two decisions share is recorded once, with both edges to it. *)
Example sample_trace_fan_in :
  sample_trace 100 = Some ((sample_path, nil_error), sample_world) /\
  node_ids (elems (CausalPath.Nodes sample_path)) =
    ["out-1"; "wf-1"; "act-1"; "dec-1"; "dec-2"; "spike-1"] /\
  (fun ed => (CausalEdge.SourceID ed, CausalEdge.TargetID ed)) <$>
    elems (CausalPath.Edges sample_path) =
    [("wf-1", "out-1"); ("act-1", "wf-1"); ("dec-1", "act-1");
     ("dec-2", "act-1"); ("spike-1", "dec-1"); ("spike-1", "dec-2")].
Proof. split; [vm_compute; reflexivity |]. split; reflexivity. Qed.

(** The same graph traced with [maxDepth = 1] through the store-backed
    fetch: the action at depth 2 is recorded before the loop stops. *)
Example sample_trace_one_above_ceiling :
  exists p w',
    sample_trace 1 = Some ((p, nil_error), w') /\
    (fun n => (CausalNode.ID n, CausalNode.Depth n)) <$>
      elems (CausalPath.Nodes p) =
    [("out-1", 0); ("wf-1", 1); ("act-1", 2)] /\
    CausalPath.Depth p = 2.
Proof. do 2 eexists. split; [reflexivity |]. split; reflexivity. Qed.

(** ** Ceilings told apart *)

Lemma init_guard w outputID m :
  0 <= m -> trace_guard m (trace_init w outputID) = true.
Proof.
  intros Hm. unfold trace_guard, trace_init. cbn [time_Now]. simpl.
  by apply Z.leb_le.
Qed.

Section Resume.

Variable fetch : string -> string -> slice CausalNode.t * slice CausalEdge.t.

Lemma loop_nodes_bound fuel m st stf :
  trace_loop fetch fuel m st = Some stf ->
  (length (st_nodes stf) <= length (st_nodes st) + fuel)%nat.
Proof.
  revert st. induction fuel as [|fuel IH]; intros st; simpl;
    destruct (trace_guard m st) eqn:Hg; intros H; try done.
  - injection H as <-. lia.
  - specialize (IH _ H).
    assert (length (st_nodes (trace_step fetch st)) <= S (length (st_nodes st)))%nat;
      [| lia].
    apply guard_true in Hg as [(cur & rest & Hq) _].
    destruct (visited_get (visited st) (id cur)) eqn:Hv.
    + rewrite (step_skip fetch st cur rest Hq Hv). unfold st_nodes. simpl. lia.
    + destruct (step_visit fetch st cur rest Hq Hv) as (_ & _ & En & _).
      rewrite En, length_app. simpl. lia.
  - injection H as <-. lia.
Qed.

(** The loop under a higher ceiling passes through the state in which the
    loop under a lower ceiling stopped and goes on from there. *)
Lemma loop_resume fuel1 fuel2 m1 m2 st s1 s2 :
  m1 <= m2 ->
  trace_loop fetch fuel1 m1 st = Some s1 ->
  trace_loop fetch fuel2 m2 st = Some s2 ->
  exists fuel, trace_loop fetch fuel m2 s1 = Some s2.
Proof.
  intros Hm. revert fuel2 st.
  induction fuel1 as [|fuel1 IH]; intros fuel2 st; simpl;
    destruct (trace_guard m1 st) eqn:Hg1; intros H1 H2; try done.
  - injection H1 as <-. eauto.
  - assert (trace_guard m2 st = true) as Hg2.
    { apply guard_true in Hg1 as [(cur & rest & Hq) HL].
      unfold trace_guard. rewrite Hq. simpl.
      apply Z.leb_le. unfold st_depth in HL. lia. }
    destruct fuel2 as [|fuel2]; simpl in H2; rewrite Hg2 in H2; [done |].
    by eapply IH.
  - injection H1 as <-. eauto.
Qed.

End Resume.

(** On the chain without end the ceiling in force shows in the result: the
    trace for a non-positive [maxDepth] differs from the trace for every
    positive ceiling other than 100. *)
Lemma default_ceiling_shows maxDepth k :
  maxDepth <= 0 -> 0 < k -> k <> 100 ->
  TraceCausalityWith chain_fetch 200 (world_of empty_store) "x" maxDepth <>
  TraceCausalityWith chain_fetch 200 (world_of empty_store) "x" k.
Proof.
  intros Hle Hk Hne Heq.
  assert (Hfacts :
    (fun s => (length (queue s), st_depth s, length (st_nodes s),
               length (st_nodes (trace_step chain_fetch s)))) <$>
      trace_loop chain_fetch 200 100 (trace_init (world_of empty_store) "x") =
    Some (1%nat, 101, 102%nat, 103%nat)) by (vm_compute; reflexivity).
  destruct (trace_loop chain_fetch 200 100
              (trace_init (world_of empty_store) "x")) as [s100|] eqn:Hloop;
    [| done].
  simpl in Hfacts. injection Hfacts as Hq Hd Hn Hn'.
  assert (Hrun0 :
    TraceCausalityWith chain_fetch 200 (world_of empty_store) "x" maxDepth =
    Some ((path s100, nil_error), world s100)).
  { unfold TraceCausalityWith.
    by rewrite (normalize_default maxDepth 100 Hle), Hloop. }
  destruct (trace_loop chain_fetch 200 k
              (trace_init (world_of empty_store) "x")) as [sk|] eqn:Hloopk.
  - assert (Hrunk :
      TraceCausalityWith chain_fetch 200 (world_of empty_store) "x" k =
      Some ((path sk, nil_error), world sk)).
    { unfold TraceCausalityWith. by rewrite (normalize_keep k 100 Hk), Hloopk. }
    rewrite Hrun0, Hrunk in Heq. injection Heq as Hpath Hworld.
    pose proof (loop_nodes_bound chain_fetch _ _ _ _ Hloopk) as Hbound.
    change (length (st_nodes (trace_init (world_of empty_store) "x")))
      with O in Hbound.
    destruct (Z.lt_ge_cases k 100) as [Hlt|Hge].
    + assert (len (CausalPath.Nodes (path sk)) < max_int) as Hfits.
      { unfold len, max_int. fold (st_nodes sk). lia. }
      destruct (TraceCausalityWith_ceiling chain_fetch _ _ _ _ _ _ _ Hrunk Hfits)
        as [Hceil _].
      rewrite (normalize_keep k 100 Hk) in Hceil.
      unfold st_depth in Hd. rewrite Hpath in Hd. lia.
    + destruct (loop_resume chain_fetch _ _ 100 k _ _ _ ltac:(lia) Hloop Hloopk)
        as [fuel Hres].
      assert (trace_guard k s100 = true) as Hg.
      { unfold trace_guard. fold (st_depth s100). rewrite Hq, Hd. simpl.
        apply Z.leb_le. lia. }
      destruct fuel as [|fuel]; simpl in Hres; rewrite Hg in Hres; [done |].
      destruct (loop_nodes_grow chain_fetch _ _ _ _ Hres) as [l Hl].
      apply (f_equal length) in Hl. rewrite length_app, Hn' in Hl.
      unfold st_nodes in Hn, Hl. rewrite <- Hpath in Hl. lia.
  - assert (Hrunk :
      TraceCausalityWith chain_fetch 200 (world_of empty_store) "x" k = None).
    { unfold TraceCausalityWith. by rewrite (normalize_keep k 100 Hk), Hloopk. }
    rewrite Hrun0, Hrunk in Heq. discriminate Heq.
Qed.

(** ** Folds of the derived views *)

Lemma fold_select_type ty (l : list CausalNode.t) (acc : slice CausalNode.t) :
  elems (fold_left
           (fun events node =>
              if decide (CausalNode.Type_ node = ty)
              then slice_append events node else events) l acc) =
  elems acc ++ nodes_of_type ty l.
Proof.
  unfold nodes_of_type. revert acc.
  induction l as [|n l IH]; intros acc; simpl.
  - by rewrite app_nil_r.
  - rewrite IH, filter_cons.
    destruct (decide (CausalNode.Type_ n = ty)); simpl; [| done].
    by rewrite <- app_assoc.
Qed.

Lemma count_of_type_snoc ty pre n :
  count_of_type ty (pre ++ [n]) =
  (count_of_type ty pre + if decide (CausalNode.Type_ n = ty) then 1 else 0)%nat.
Proof.
  unfold count_of_type, nodes_of_type.
  rewrite filter_app, length_app, filter_cons.
  by destruct (decide (CausalNode.Type_ n = ty)).
Qed.

Lemma default_count_entry c : default 0 (count_entry c) = Z.of_nat c.
Proof. by destruct c. Qed.

Lemma count_entry_succ c : count_entry (c + 1) = Some (Z.of_nat c + 1).
Proof.
  replace (c + 1)%nat with (S c) by lia. unfold count_entry. f_equal. lia.
Qed.

(** The map built by [counts[node.Type]++] holds the number of nodes of each
    type, as long as that number is an [int]. *)
Lemma fold_count_types (l pre : list CausalNode.t) (m : gmap string Z) :
  (forall ty, m !! ty = count_entry (count_of_type ty pre)) ->
  Z.of_nat (length (pre ++ l)) <= max_int ->
  forall ty,
    fold_left
      (fun counts node =>
         <[CausalNode.Type_ node :=
             int_add (default 0 (counts !! CausalNode.Type_ node)) 1]> counts)
      l m !! ty =
    count_entry (count_of_type ty (pre ++ l)).
Proof.
  revert pre m. induction l as [|n l IH]; intros pre m Hm Hlen ty; simpl.
  - by rewrite app_nil_r.
  - replace (pre ++ n :: l) with ((pre ++ [n]) ++ l) in *
      by (by rewrite <- app_assoc).
    apply IH; [| done]. intros ty'. rewrite count_of_type_snoc.
    destruct (decide (CausalNode.Type_ n = ty')) as [<-|Hne].
    + rewrite lookup_insert_eq, Hm, default_count_entry, count_entry_succ.
      f_equal. apply int_add_1.
      pose proof (length_filter (fun x => CausalNode.Type_ x = CausalNode.Type_ n) pre)
        as Hf.
      unfold count_of_type, nodes_of_type, min_int.
      rewrite !length_app in Hlen. simpl in Hlen. lia.
    + rewrite lookup_insert_ne by done. rewrite Hm. f_equal. lia.
Qed.

Lemma count_of_type_types ty (l : list CausalNode.t) :
  count_of_type ty l =
  length (filter (fun t => t = ty) (CausalNode.Type_ <$> l)).
Proof.
  unfold count_of_type, nodes_of_type. induction l as [|n l IH]; simpl; [done |].
  rewrite !filter_cons.
  destruct (decide (CausalNode.Type_ n = ty)); simpl; by rewrite IH.
Qed.

Lemma count_of_type_perm ty (l : list CausalNode.t) (tys : list string) :
  CausalNode.Type_ <$> l ≡ₚ tys ->
  count_of_type ty l = length (filter (fun t => t = ty) tys).
Proof.
  intros Hp. rewrite count_of_type_types. by rewrite Hp.
Qed.

(** * The claims *)

(** ** A missing output *)

(** C1, as the source has it: tracing an output id that does not exist in
    the store is not an error. The call returns a [nil] error and a path
    that holds the unresolved root node alone, with no edge. *)
Theorem TraceCausality_absent_output {C} (s : CausalQueryService C) ctx w
    outputID maxDepth fuel :
  ~ in_store (store w) outputID ->
  exists ts traced w',
    TraceCausality (S fuel) s ctx w outputID maxDepth =
      Some ((CausalPath.mk outputID (mk_slice [root_node outputID ts])
               (mk_slice []) 0 float64_zero traced,
             nil_error), w').
Proof.
  intros _. do 3 eexists. apply TraceCausality_unfold.
Qed.

Lemma TraceCausality_absent_output_witness :
  ~ in_store (store (world_of empty_store)) "output-123" /\
  exists ts traced w',
    TraceCausality 1 service Background (world_of empty_store) "output-123" 100 =
      Some ((CausalPath.mk "output-123" (mk_slice [root_node "output-123" ts])
               (mk_slice []) 0 float64_zero traced,
             nil_error), w').
Proof.
  assert (~ in_store (store (world_of empty_store)) "output-123") as H.
  { unfold in_store. simpl. rewrite lookup_empty. by intros [? ?]. }
  split; [exact H |].
  exact (TraceCausality_absent_output service Background
           (world_of empty_store) "output-123" 100 0 H).
Defined.

(** C1 fails as stated: the id "output-123" is absent from the empty store,
    and the trace of it succeeds with a [nil] error and a root-only path. *)
Lemma absent_output_is_not_an_error :
  ~ in_store empty_store "output-123" /\
  TraceCausality 1 service Background (world_of empty_store) "output-123" 100 =
    Some ((CausalPath.mk "output-123"
             (mk_slice [root_node "output-123" 1])
             (mk_slice []) 0 float64_zero 0,
           nil_error),
          {| store := empty_store; wall := wall (world_of empty_store);
             ticks := 2 |}).
Proof.
  split.
  - unfold in_store. simpl. rewrite lookup_empty. by intros [? ?].
  - reflexivity.
Qed.

(** ** The walk *)

(** C2, as the source has it. The walk of [TraceCausality] returns for
    every parent fetch once the fuel covers [trace_fuel], the ceiling
    [math.MaxInt] apart, and in every path that it returns no id occurs
    twice among the nodes, whatever the fan-in, and every edge that the
    fetch reports for a recorded node is among the edges, also when its
    parent had been visited before. A parent reported for a recorded node below
    the ceiling occurs exactly once. [getParentNodes] of the source reports
    no parent: [TraceCausality] records the root alone, and not the shared
    parent of a fan-in that the store holds. *)
Theorem TraceCausality_records_each_id_once
    (fetch : string -> string -> slice CausalNode.t * slice CausalEdge.t)
    w outputID maxDepth :
  (forall fuel,
     normalize maxDepth 100 < max_int ->
     (trace_fuel fetch outputID maxDepth <= fuel)%nat ->
     exists p w', TraceCausalityWith fetch fuel w outputID maxDepth =
                  Some ((p, nil_error), w')) /\
  (forall fuel p e w',
     TraceCausalityWith fetch fuel w outputID maxDepth = Some ((p, e), w') ->
     len (CausalPath.Nodes p) < max_int ->
     (forall x, (occurrences x (elems (CausalPath.Nodes p)) <= 1)%nat) /\
     (forall n ed, n ∈ elems (CausalPath.Nodes p) -> ed ∈ edges_of fetch n ->
                   ed ∈ elems (CausalPath.Edges p)) /\
     (forall n q, n ∈ elems (CausalPath.Nodes p) ->
                  CausalNode.Depth n < normalize maxDepth 100 ->
                  q ∈ parents_of fetch n ->
                  occurrences (CausalNode.ID q) (elems (CausalPath.Nodes p)) =
                  1%nat)) /\
  (forall C (s : CausalQueryService C) ctx fuel,
     exists p w' ts,
       TraceCausality (S fuel) s ctx w outputID maxDepth =
         Some ((p, nil_error), w') /\
       elems (CausalPath.Nodes p) = [root_node outputID ts] /\
       elems (CausalPath.Edges p) = []).
Proof.
  split; [| split].
  - intros fuel Hm Hfuel. by apply TraceCausalityWith_returns.
  - intros fuel p e w' H Hlen.
    destruct (TraceCausalityWith_final fetch fuel w outputID maxDepth p e w' H Hlen)
      as (stf & -> & _ & _ & I & Hg & _).
    fold (st_nodes stf). fold (st_edges stf).
    pose proof (inv_nodup _ _ _ _ I) as Hnd.
    split; [| split].
    + intros x. by apply occurrences_nodup.
    + intros n ed. by apply (inv_edges _ _ _ _ I).
    + intros n q Hn Hdepth Hq.
      pose proof (occurrences_nodup (st_nodes stf) (CausalNode.ID q) Hnd) as Hle.
      enough (CausalNode.ID q ∈ node_ids (st_nodes stf)) as Hin
        by (pose proof (occurrences_elem _ _ Hin); lia).
      destruct (inv_links _ _ _ _ I n q Hn Hq)
        as [(n' & Hn' & Hid & _)|[_ (it & Hit & _ & Hdep)]].
      * rewrite <- Hid. apply list_elem_of_fmap. by exists n'.
      * exfalso. apply guard_false in Hg as [Hg|Hg].
        -- rewrite Hg in Hit. by apply elem_of_nil in Hit.
        -- destruct (inv_queue _ _ _ _ I) as (A & B & HAB & HA & HB).
           rewrite HAB in Hit. apply elem_of_app in Hit as [Hit|Hit].
           ++ specialize (HA it Hit). lia.
           ++ specialize (HB it Hit). lia.
  - intros C s ctx fuel. rewrite TraceCausality_unfold.
    do 3 eexists. split; [reflexivity |]. done.
Qed.

Lemma TraceCausality_records_each_id_once_witness :
  (exists p w', sample_trace 100 = Some ((p, nil_error), w')) /\
  sample_trace 100 = Some ((sample_path, nil_error), sample_world) /\
  len (CausalPath.Nodes sample_path) < max_int /\
  (forall x, (occurrences x (elems (CausalPath.Nodes sample_path)) <= 1)%nat) /\
  (forall n ed, n ∈ elems (CausalPath.Nodes sample_path) ->
                ed ∈ edges_of (store_parents fanin_store) n ->
                ed ∈ elems (CausalPath.Edges sample_path)) /\
  (forall n q, n ∈ elems (CausalPath.Nodes sample_path) ->
               CausalNode.Depth n < normalize 100 100 ->
               q ∈ parents_of (store_parents fanin_store) n ->
               occurrences (CausalNode.ID q)
                 (elems (CausalPath.Nodes sample_path)) = 1%nat).
Proof.
  pose proof (TraceCausality_records_each_id_once (store_parents fanin_store)
                (world_of fanin_store) "out-1" 100) as (Hret & Honce & _).
  assert (sample_trace 100 = Some ((sample_path, nil_error), sample_world))
    as Hrun by (vm_compute; reflexivity).
  assert (len (CausalPath.Nodes sample_path) < max_int) as Hlen
    by (vm_compute; reflexivity).
  split.
  - apply (Hret 20%nat).
    + vm_compute; reflexivity.
    + apply Nat.leb_le. vm_compute; reflexivity.
  - split; [exact Hrun |]. split; [exact Hlen |].
    exact (Honce 20%nat sample_path nil_error sample_world Hrun Hlen).
Defined.

(** C2 fails as stated: the decisions dec-1 and dec-2 of the sample store
    share the parent spike-1, and the trace of out-1 records neither that
    parent nor any edge. *)
Lemma shared_parent_is_not_recorded :
  fan_in fanin_store "dec-1" "dec-2" "spike-1" /\
  exists p w',
    TraceCausality 1 service Background (world_of fanin_store) "out-1" 100 =
      Some ((p, nil_error), w') /\
    occurrences "spike-1" (elems (CausalPath.Nodes p)) = 0%nat /\
    elems (CausalPath.Edges p) = [].
Proof.
  split.
  - unfold fan_in. simpl. split; [done |]. split; set_solver.
  - do 2 eexists. split; [reflexivity |]. split; reflexivity.
Qed.

(** C3. For a positive [maxDepth = k] the trace returns a path none of
    whose nodes is deeper than [k], whatever the store holds; and a
    non-positive [maxDepth] gives the path of [maxDepth = 100]. The
    placeholder [getParentNodes] reports no parent, so the root at depth 0
    is the only node that the source records. *)
Theorem TraceCausality_respects_ceiling {C} (s : CausalQueryService C) ctx w
    outputID :
  (forall fuel k, 0 < k ->
     exists p w',
       TraceCausality (S fuel) s ctx w outputID k = Some ((p, nil_error), w') /\
       forall n, n ∈ elems (CausalPath.Nodes p) -> CausalNode.Depth n <= k) /\
  (forall fuel maxDepth, maxDepth <= 0 ->
     TraceCausality fuel s ctx w outputID maxDepth =
     TraceCausality fuel s ctx w outputID 100).
Proof.
  split.
  - intros fuel k Hk. rewrite TraceCausality_unfold. do 2 eexists.
    split; [reflexivity |]. simpl.
    intros n ->%list_elem_of_singleton. simpl. lia.
  - intros fuel maxDepth Hle. unfold TraceCausality, TraceCausalityWith.
    by rewrite (normalize_default maxDepth 100 Hle).
Qed.

Lemma TraceCausality_respects_ceiling_witness :
  (exists p w',
     TraceCausality 3 service Background (world_of fanin_store) "out-1" 2 =
       Some ((p, nil_error), w') /\
     forall n, n ∈ elems (CausalPath.Nodes p) -> CausalNode.Depth n <= 2) /\
  TraceCausality 3 service Background (world_of fanin_store) "out-1" (-7) =
  TraceCausality 3 service Background (world_of fanin_store) "out-1" 100.
Proof.
  pose proof (TraceCausality_respects_ceiling service Background
                (world_of fanin_store) "out-1") as [H1 H2].
  split.
  - apply (H1 2%nat 2). lia.
  - apply (H2 3%nat (-7)). lia.
Defined.

(** C4. In every path that [TraceCausality] returns, the depth of a node is
    its breadth-first distance from the root along the discovered parent
    edges: a chain of that many hops reaches the node and no chain is
    shorter; and the depth of the path is the largest depth among its nodes.
    The walk has this property for every parent fetch, where it returns
    once the fuel covers [trace_fuel], the ceiling [math.MaxInt] apart, and
    where a path is taken to hold fewer than [math.MaxInt] nodes; with
    [getParentNodes] of the source it returns after one pass. *)
Theorem TraceCausality_depth_is_bfs_distance
    (fetch : string -> string -> slice CausalNode.t * slice CausalEdge.t)
    w outputID maxDepth :
  (forall fuel,
     normalize maxDepth 100 < max_int ->
     (trace_fuel fetch outputID maxDepth <= fuel)%nat ->
     exists p w', TraceCausalityWith fetch fuel w outputID maxDepth =
                  Some ((p, nil_error), w')) /\
  (forall fuel p e w',
     TraceCausalityWith fetch fuel w outputID maxDepth = Some ((p, e), w') ->
     len (CausalPath.Nodes p) < max_int ->
     depths_are_distances fetch outputID p) /\
  (forall C (s : CausalQueryService C) ctx fuel,
     exists p w',
       TraceCausality (S fuel) s ctx w outputID maxDepth =
         Some ((p, nil_error), w') /\
       depths_are_distances (getParentNodes s ctx) outputID p).
Proof.
  assert (Hgen : forall fetch' fuel p e w',
    TraceCausalityWith fetch' fuel w outputID maxDepth = Some ((p, e), w') ->
    len (CausalPath.Nodes p) < max_int ->
    depths_are_distances fetch' outputID p).
  { intros fetch' fuel p e w' H Hlen.
    destruct (TraceCausalityWith_final fetch' fuel w outputID maxDepth p e w' H Hlen)
      as (stf & -> & _ & _ & I & Hg & _).
    pose proof (normalize_pos maxDepth 100 ltac:(lia)) as Hm.
    unfold depths_are_distances. fold (st_nodes stf). fold (st_depth stf).
    split; [| split].
    - intros n Hn. pose proof (inv_depth_range _ _ _ _ I n Hn) as Hr.
      split; [lia |]. split.
      + by apply (inv_reach_nodes _ _ _ _ I).
      + intros k Hk.
        pose proof (hops_lower_bound fetch' _ _ _ _ _ I Hk n Hn eq_refl). lia.
    - intros n Hn. by apply (inv_depth_range _ _ _ _ I).
    - eapply stopped_nonempty; [| exact I | exact Hg]. lia. }
  split; [| split].
  - intros fuel Hm Hfuel. by apply TraceCausalityWith_returns.
  - apply Hgen.
  - intros C s ctx fuel. do 2 eexists. split.
    + apply TraceCausality_unfold.
    + eapply (Hgen (getParentNodes s ctx) (S fuel)).
      * apply (TraceCausality_unfold fuel s ctx).
      * unfold len, max_int. simpl. lia.
Qed.

Lemma TraceCausality_depth_is_bfs_distance_witness :
  (exists p w', sample_trace 100 = Some ((p, nil_error), w')) /\
  sample_trace 100 = Some ((sample_path, nil_error), sample_world) /\
  len (CausalPath.Nodes sample_path) < max_int /\
  depths_are_distances (store_parents fanin_store) "out-1" sample_path.
Proof.
  pose proof (TraceCausality_depth_is_bfs_distance (store_parents fanin_store)
                (world_of fanin_store) "out-1" 100) as (Hret & Hdist & _).
  assert (sample_trace 100 = Some ((sample_path, nil_error), sample_world))
    as Hrun by (vm_compute; reflexivity).
  assert (len (CausalPath.Nodes sample_path) < max_int) as Hlen
    by (vm_compute; reflexivity).
  split.
  - apply (Hret 20%nat).
    + vm_compute; reflexivity.
    + apply Nat.leb_le. vm_compute; reflexivity.
  - split; [exact Hrun |]. split; [exact Hlen |].
    exact (Hdist 20%nat sample_path nil_error sample_world Hrun Hlen).
Defined.

(** ** Defaults *)

(** C5. A non-positive [maxDepth], [minOccurrences] or [limit] is replaced
    by 100, 5 and 100, and no error comes of it. For [TraceCausality] the
    walk over every parent fetch, and so the one of the source, gives for a
    non-positive [maxDepth] what it gives for 100, with a [nil] error; 100
    is the only positive ceiling of which this is true, as the chain
    without end shows. In [FindEmergentPatterns] and [QueryByPatternHash]
    the parameter holds 5 and 100 when the body returns, the call gives what
    it gives for the default, and the error is [nil]. *)
Theorem nonpositive_arguments_normalized {C} (s : CausalQueryService C) ctx w :
  (forall fuel outputID maxDepth, maxDepth <= 0 ->
     (forall fetch,
        TraceCausalityWith fetch fuel w outputID maxDepth =
        TraceCausalityWith fetch fuel w outputID 100) /\
     (forall fetch p e w',
        TraceCausalityWith fetch fuel w outputID maxDepth = Some ((p, e), w') ->
        e = nil_error) /\
     TraceCausality fuel s ctx w outputID maxDepth =
       TraceCausality fuel s ctx w outputID 100 /\
     (exists p w', TraceCausality (S fuel) s ctx w outputID maxDepth =
                   Some ((p, nil_error), w')) /\
     (forall k, 0 < k -> k <> 100 ->
        TraceCausalityWith chain_fetch 200 (world_of empty_store) "x" maxDepth <>
        TraceCausalityWith chain_fetch 200 (world_of empty_store) "x" k)) /\
  (forall startTime endTime minOccurrences, minOccurrences <= 0 ->
     (FindEmergentPatterns_body s ctx w startTime endTime minOccurrences).1 = 5 /\
     FindEmergentPatterns s ctx w startTime endTime minOccurrences =
       FindEmergentPatterns s ctx w startTime endTime 5 /\
     (FindEmergentPatterns s ctx w startTime endTime minOccurrences).1.2 =
       nil_error) /\
  (forall patternHash limit, limit <= 0 ->
     (QueryByPatternHash_body s ctx w patternHash limit).1 = 100 /\
     QueryByPatternHash s ctx w patternHash limit =
       QueryByPatternHash s ctx w patternHash 100 /\
     (QueryByPatternHash s ctx w patternHash limit).1.2 = nil_error).
Proof.
  split; [| split].
  - intros fuel outputID maxDepth Hle.
    assert (Hsame : forall fetch,
      TraceCausalityWith fetch fuel w outputID maxDepth =
      TraceCausalityWith fetch fuel w outputID 100).
    { intros fetch. unfold TraceCausalityWith.
      by rewrite (normalize_default maxDepth 100 Hle). }
    split; [exact Hsame |]. split; [| split; [| split]].
    + intros fetch p e w'. unfold TraceCausalityWith.
      destruct (trace_loop _ _ _ _) as [stf|]; [| done].
      by intros [= _ <- _].
    + apply Hsame.
    + rewrite TraceCausality_unfold. eauto.
    + intros k Hk Hne. by apply default_ceiling_shows.
  - intros startTime endTime minOccurrences Hle.
    unfold FindEmergentPatterns, FindEmergentPatterns_body. simpl.
    by rewrite (normalize_default minOccurrences 5 Hle).
  - intros patternHash limit Hle.
    unfold QueryByPatternHash, QueryByPatternHash_body. simpl.
    by rewrite (normalize_default limit 100 Hle).
Qed.

Lemma nonpositive_arguments_normalized_witness :
  (-3 <= 0 /\
   TraceCausalityWith (store_parents fanin_store) 20
     (world_of fanin_store) "out-1" (-3) = sample_trace 100 /\
   TraceCausality 5 service Background (world_of fanin_store) "out-1" (-3) =
     TraceCausality 5 service Background (world_of fanin_store) "out-1" 100 /\
   (exists p w', TraceCausality 6 service Background (world_of fanin_store)
                   "out-1" (-3) = Some ((p, nil_error), w')) /\
   TraceCausalityWith chain_fetch 200 (world_of empty_store) "x" (-3) <>
   TraceCausalityWith chain_fetch 200 (world_of empty_store) "x" 99) /\
  ((FindEmergentPatterns_body service Background (world_of pattern_store)
      0 100 0).1 = 5 /\
   FindEmergentPatterns service Background (world_of pattern_store) 0 100 0 =
     FindEmergentPatterns service Background (world_of pattern_store) 0 100 5 /\
   (FindEmergentPatterns service Background (world_of pattern_store) 0 100 0).1.2 =
     nil_error) /\
  ((QueryByPatternHash_body service Background (world_of pattern_store)
      "A" (-1)).1 = 100 /\
   QueryByPatternHash service Background (world_of pattern_store) "A" (-1) =
     QueryByPatternHash service Background (world_of pattern_store) "A" 100 /\
   (QueryByPatternHash service Background (world_of pattern_store) "A" (-1)).1.2 =
     nil_error).
Proof.
  pose proof (nonpositive_arguments_normalized service Background
                (world_of fanin_store)) as (HT & _ & _).
  pose proof (nonpositive_arguments_normalized service Background
                (world_of pattern_store)) as (_ & HF & HQ).
  assert (-3 <= 0) as Hneg by lia.
  split; [| split].
  - destruct (HT 20%nat "out-1" (-3) Hneg) as (Hsame & _ & _ & _ & Hshow).
    destruct (HT 5%nat "out-1" (-3) Hneg) as (_ & _ & Hsrc & Hret & _).
    split; [exact Hneg |]. split; [exact (Hsame (store_parents fanin_store)) |].
    split; [exact Hsrc |]. split; [exact Hret |].
    apply (Hshow 99); lia.
  - apply (HF 0 100 0). lia.
  - apply (HQ "A" (-1)). lia.
Defined.

(** ** Emergent patterns *)

(** C6, as the source has it: [FindEmergentPatterns] returns an empty list
    that is not [nil], a [nil] error and the world unchanged, for every
    window and every [minOccurrences]; the aggregation is left to a comment.
    No fingerprint is therefore reported, also none that occurs often
    enough, and what is reported is in the order of descending count, then
    most recent last occurrence. *)
Theorem FindEmergentPatterns_reports_nothing {C} (s : CausalQueryService C)
    ctx w startTime endTime minOccurrences :
  exists r,
    FindEmergentPatterns s ctx w startTime endTime minOccurrences =
      ((r, nil_error), w) /\
    reported r = [] /\ is_nil r = false /\
    Forall (fun x => normalize minOccurrences 5 <=
                     EmergentPatternResult.OccurrenceCount x) (elems r) /\
    StronglySorted pattern_before (elems r).
Proof.
  eexists. split; [reflexivity |]. simpl.
  repeat split; constructor.
Qed.

(** C6 fails as stated: with fingerprint A three times and fingerprint B
    seven times in the window, the call with [minOccurrences = 5] does not
    report B. *)
Lemma frequent_pattern_is_not_reported :
  pattern_count pattern_store 0 100 "A" = 3%nat /\
  pattern_count pattern_store 0 100 "B" = 7%nat /\
  reported (FindEmergentPatterns service Background (world_of pattern_store)
              0 100 5).1.1 = [] /\
  reported (FindEmergentPatterns service Background (world_of pattern_store)
              0 100 5).1.1 <> ["B"].
Proof.
  split; [vm_compute; reflexivity |]. split; [vm_compute; reflexivity |].
  split; [reflexivity | discriminate].
Qed.

(** ** A root without parents *)

(** C7. When the output has no causal parent, the trace returns a path
    whose only node is the root, of type external_output and depth 0, and
    whose edge list is empty. The walk does so for every fetch that reports
    nothing for the output; [getParentNodes] of the source reports nothing
    for any node, so that [TraceCausality] does so for every output. *)
Theorem TraceCausality_root_only
    (fetch : string -> string -> slice CausalNode.t * slice CausalEdge.t)
    fuel w outputID maxDepth :
  (elems (fetch outputID "external_output").1 = [] ->
   elems (fetch outputID "external_output").2 = [] ->
   exists p w' ts,
     TraceCausalityWith fetch (S fuel) w outputID maxDepth =
       Some ((p, nil_error), w') /\
     elems (CausalPath.Nodes p) = [root_node outputID ts] /\
     elems (CausalPath.Edges p) = []) /\
  (forall C (s : CausalQueryService C) ctx,
     (forall parent, (outputID, parent) ∉ causes (store w)) ->
     exists p w' ts,
       TraceCausality (S fuel) s ctx w outputID maxDepth =
         Some ((p, nil_error), w') /\
       elems (CausalPath.Nodes p) = [root_node outputID ts] /\
       elems (CausalPath.Edges p) = []).
Proof.
  split.
  - intros Hp He. rewrite (TraceCausalityWith_leaf fetch fuel w _ _ Hp He).
    do 3 eexists. split; [reflexivity |]. done.
  - intros C s ctx _. rewrite TraceCausality_unfold.
    do 3 eexists. split; [reflexivity |]. done.
Qed.

Lemma TraceCausality_root_only_witness :
  (elems (store_parents fanin_store "out-2" "external_output").1 = [] /\
   elems (store_parents fanin_store "out-2" "external_output").2 = [] /\
   exists p w' ts,
     TraceCausalityWith (store_parents fanin_store) 1 (world_of fanin_store)
       "out-2" 100 = Some ((p, nil_error), w') /\
     elems (CausalPath.Nodes p) = [root_node "out-2" ts] /\
     elems (CausalPath.Edges p) = []) /\
  ((forall parent, (("out-2", parent) : string * string) ∉
                   causes (store (world_of fanin_store))) /\
   exists p w' ts,
     TraceCausality 1 service Background (world_of fanin_store) "out-2" 100 =
       Some ((p, nil_error), w') /\
     elems (CausalPath.Nodes p) = [root_node "out-2" ts] /\
     elems (CausalPath.Edges p) = []).
Proof.
  pose proof (TraceCausality_root_only (store_parents fanin_store) 0
                (world_of fanin_store) "out-2" 100) as [Hgen Hsrc].
  assert (forall parent, (("out-2", parent) : string * string) ∉
                         causes (store (world_of fanin_store))) as Hnone.
  { intros parent. simpl. rewrite !not_elem_of_cons.
    repeat split; try discriminate. apply not_elem_of_nil. }
  split.
  - split; [reflexivity |]. split; [reflexivity |].
    apply Hgen; reflexivity.
  - split; [exact Hnone |]. by apply Hsrc.
Defined.

(** ** Derived views *)

(** C8. [GetSpikeEvents] and [GetDecisions] return the nodes of type
    spike_event and routing_decision in the order of the node list, and
    [CountByType] maps every type to the number of nodes that have it. On a
    path of two spike events, one decision and one action the lengths are 2
    and 1 and the counts are 2, 1 and 1. The three views are functions of
    the path alone: they receive neither the service nor the world. *)
Theorem derived_views_project (p : CausalPath.t) :
  len (CausalPath.Nodes p) <= max_int ->
  elems (GetSpikeEvents p) =
    nodes_of_type "spike_event" (elems (CausalPath.Nodes p)) /\
  elems (GetDecisions p) =
    nodes_of_type "routing_decision" (elems (CausalPath.Nodes p)) /\
  (forall ty, CountByType p !! ty =
              count_entry (count_of_type ty (elems (CausalPath.Nodes p)))) /\
  (CausalNode.Type_ <$> elems (CausalPath.Nodes p) ≡ₚ
     ["spike_event"; "spike_event"; "routing_decision"; "agent_action"] ->
   len (GetSpikeEvents p) = 2 /\ len (GetDecisions p) = 1 /\
   CountByType p =
     <["spike_event" := 2]> (<["routing_decision" := 1]>
       (<["agent_action" := 1]> ∅))).
Proof.
  intros Hlen.
  assert (Hs : elems (GetSpikeEvents p) =
               nodes_of_type "spike_event" (elems (CausalPath.Nodes p)))
    by (unfold GetSpikeEvents; by rewrite fold_select_type).
  assert (Hd : elems (GetDecisions p) =
               nodes_of_type "routing_decision" (elems (CausalPath.Nodes p)))
    by (unfold GetDecisions; by rewrite fold_select_type).
  assert (Hc : forall ty, CountByType p !! ty =
                 count_entry (count_of_type ty (elems (CausalPath.Nodes p)))).
  { intros ty. unfold CountByType.
    apply (fold_count_types (elems (CausalPath.Nodes p)) [] ∅); [| done].
    intros ty'. by rewrite lookup_empty. }
  do 3 (split; [done |]). intros Hp.
  split; [| split].
  - unfold len. rewrite Hs.
    fold (count_of_type "spike_event" (elems (CausalPath.Nodes p))).
    by rewrite (count_of_type_perm _ _ _ Hp).
  - unfold len. rewrite Hd.
    fold (count_of_type "routing_decision" (elems (CausalPath.Nodes p))).
    by rewrite (count_of_type_perm _ _ _ Hp).
  - apply map_eq. intros ty. rewrite Hc, (count_of_type_perm _ _ _ Hp).
    destruct (decide (ty = "spike_event")) as [->|H1]; [done |].
    destruct (decide (ty = "routing_decision")) as [->|H2]; [done |].
    destruct (decide (ty = "agent_action")) as [->|H3]; [done |].
    rewrite !lookup_insert_ne, lookup_empty by done.
    rewrite !filter_cons, filter_nil.
    rewrite !decide_False by done. done.
Qed.

Lemma derived_views_project_witness :
  len (CausalPath.Nodes mixed_path) <= max_int /\
  len (GetSpikeEvents mixed_path) = 2 /\ len (GetDecisions mixed_path) = 1 /\
  CountByType mixed_path =
    <["spike_event" := 2]> (<["routing_decision" := 1]>
      (<["agent_action" := 1]> ∅)).
Proof.
  assert (len (CausalPath.Nodes mixed_path) <= max_int) as H
    by (vm_compute; discriminate).
  split; [exact H |].
  apply (derived_views_project mixed_path H).
  exact (Permutation_rev
           ["agent_action"; "routing_decision"; "spike_event"; "spike_event"]).
Defined.

(** ** Reading only *)

(** C9. The five queries leave the store as they found it; the walk of
    [TraceCausality] does so for every fetch it could be given. *)
Theorem queries_leave_store_unchanged {C} (s : CausalQueryService C) ctx w :
  (forall fuel outputID maxDepth,
     exists r w', TraceCausality (S fuel) s ctx w outputID maxDepth = Some (r, w') /\
                  store w' = store w) /\
  (forall fetch fuel outputID maxDepth r w',
     TraceCausalityWith fetch fuel w outputID maxDepth = Some (r, w') ->
     store w' = store w) /\
  (forall agentID actionID,
     store (GetAgentDecisionPath s ctx w agentID actionID).2 = store w) /\
  (forall startTime endTime minOccurrences,
     store (FindEmergentPatterns s ctx w startTime endTime minOccurrences).2 =
     store w) /\
  (forall patternHash limit,
     store (QueryByPatternHash s ctx w patternHash limit).2 = store w) /\
  (forall inferenceID, store (QueryByInferenceID s ctx w inferenceID).2 = store w).
Proof.
  split; [| split; [| done]].
  - intros fuel outputID maxDepth. rewrite TraceCausality_unfold. eauto.
  - intros fetch fuel outputID maxDepth r w'. unfold TraceCausalityWith.
    destruct (trace_loop _ _ _ _) as [stf|] eqn:Hloop; [| done].
    intros H. injection H as <- <-.
    by rewrite (loop_store _ _ _ _ _ Hloop).
Qed.

Lemma queries_leave_store_unchanged_witness :
  sample_trace 100 = Some ((sample_path, nil_error), sample_world) /\
  store sample_world = store (world_of fanin_store).
Proof.
  assert (sample_trace 100 = Some ((sample_path, nil_error), sample_world))
    as H by (vm_compute; reflexivity).
  split; [exact H |].
  pose proof (queries_leave_store_unchanged service Background
                (world_of fanin_store)) as (_ & Hw & _).
  exact (Hw (store_parents fanin_store) 20%nat "out-1" 100 _ _ H).
Defined.

(** ** The decision path of an agent *)

(** C10. [GetAgentDecisionPath] returns a [nil] error and a path that
    carries the two ids, four lists that are empty without being [nil], and
    a total depth of 0. It makes no fetch: the world is returned as it was
    and the result is the same in every world. *)
Theorem GetAgentDecisionPath_empty {C} (s : CausalQueryService C) ctx w
    agentID actionID :
  exists p,
    GetAgentDecisionPath s ctx w agentID actionID = ((p, nil_error), w) /\
    AgentDecisionPath.AgentID p = agentID /\
    AgentDecisionPath.ActionID p = actionID /\
    (elems (AgentDecisionPath.SpikeEvents p) = [] /\
     is_nil (AgentDecisionPath.SpikeEvents p) = false) /\
    (elems (AgentDecisionPath.Decisions p) = [] /\
     is_nil (AgentDecisionPath.Decisions p) = false) /\
    (elems (AgentDecisionPath.Workflows p) = [] /\
     is_nil (AgentDecisionPath.Workflows p) = false) /\
    (elems (AgentDecisionPath.Outputs p) = [] /\
     is_nil (AgentDecisionPath.Outputs p) = false) /\
    AgentDecisionPath.TotalDepth p = 0 /\
    forall w2, (GetAgentDecisionPath s ctx w2 agentID actionID).1 = (p, nil_error).
Proof. eexists. split; [reflexivity |]. done. Qed.

(** * Further properties of the walk *)

(** ** Invariants of the loop in general *)

Section LoopInvariants.

Variable fetch : string -> string -> slice CausalNode.t * slice CausalEdge.t.

(** A property that every guarded pass keeps holds when the loop stops. *)
Lemma loop_invariant (P : LoopState -> Prop) fuel m st stf :
  (forall s, P s -> trace_guard m s = true -> P (trace_step fetch s)) ->
  P st -> trace_loop fetch fuel m st = Some stf -> P stf.
Proof.
  intros Hstep. revert st. induction fuel as [|fuel IH]; intros st HP; simpl;
    destruct (trace_guard m st) eqn:Hg; intros H; try done.
  - by injection H as <-.
  - eapply IH; [| exact H]. by apply Hstep.
  - by injection H as <-.
Qed.

Lemma TraceCausalityWith_loop fuel w outputID maxDepth p e w' :
  TraceCausalityWith fetch fuel w outputID maxDepth = Some ((p, e), w') ->
  exists stf,
    trace_loop fetch fuel (normalize maxDepth 100) (trace_init w outputID) =
      Some stf /\
    p = path stf /\ w' = world stf /\ e = nil_error.
Proof.
  unfold TraceCausalityWith. intros H.
  destruct (trace_loop _ _ _ _) as [stf|] eqn:Hloop; [| done].
  injection H as <- <- <-. by exists stf.
Qed.

Lemma step_visit_world st cur rest :
  queue st = cur :: rest ->
  visited_get (visited st) (id cur) = false ->
  world (trace_step fetch st) = (time_Now (world st)).2 /\
  is_nil (CausalPath.Nodes (path (trace_step fetch st))) = false /\
  (is_nil (CausalPath.Edges (path st)) = false ->
   is_nil (CausalPath.Edges (path (trace_step fetch st))) = false).
Proof.
  intros Hq Hv. unfold trace_step. rewrite Hq, Hv. cbn [time_Now].
  destruct (fetch (id cur) (nodeType cur)) as [parents edges].
  cbn [world path CausalPath.Nodes CausalPath.Edges snd].
  split; [done |]. split; [done |].
  generalize (CausalPath.Edges (path st)).
  induction (elems edges) as [|ed l IH]; intros s Hs; simpl; [done |].
  by apply IH.
Qed.

Lemma clock_inv_init w outputID : clock_inv w outputID (trace_init w outputID).
Proof.
  unfold clock_inv, trace_init, st_nodes. cbn [time_Now]. simpl.
  repeat split; try done; try lia.
Qed.

Lemma clock_inv_step w outputID m st :
  clock_inv w outputID st -> trace_guard m st = true ->
  clock_inv w outputID (trace_step fetch st).
Proof.
  intros (Hwall & Hticks & Hts & Htr & Hout & Hlat & Hedges & Hnodes) Hg.
  apply guard_true in Hg as [(cur & rest & Hq) _].
  destruct (visited_get (visited st) (id cur)) eqn:Hv.
  - rewrite (step_skip fetch st cur rest Hq Hv). unfold clock_inv, st_nodes.
    simpl. done.
  - destruct (step_visit fetch st cur rest Hq Hv)
      as (_ & _ & En & _ & _ & Eo & Et & El & _).
    destruct (step_visit_world st cur rest Hq Hv) as (Ew & Enn & Een).
    unfold clock_inv. rewrite Ew, En, Eo, Et, El. cbn [time_Now snd wall ticks].
    split; [done |]. split; [rewrite length_app; simpl; lia |].
    split; [| do 3 (split; [done |]); split; [by apply Een | done]].
    intros i n Hin. apply lookup_app_Some in Hin as [Hin|[Hle Hin]].
    + by apply Hts.
    + apply list_lookup_singleton_Some in Hin as [Hi <-]. simpl.
      rewrite Hwall, Hticks. split; [| done]. f_equal. lia.
Qed.

End LoopInvariants.

Section WalkFacts.

Variable fetch : string -> string -> slice CausalNode.t * slice CausalEdge.t.

Lemma edges_step m st :
  st_edges st = concat (edges_of fetch <$> st_nodes st) ->
  trace_guard m st = true ->
  st_edges (trace_step fetch st) =
  concat (edges_of fetch <$> st_nodes (trace_step fetch st)).
Proof.
  intros He Hg. apply guard_true in Hg as [(cur & rest & Hq) _].
  destruct (visited_get (visited st) (id cur)) eqn:Hv.
  - by rewrite (step_skip fetch st cur rest Hq Hv).
  - destruct (step_visit fetch st cur rest Hq Hv) as (_ & _ & En & Ee & _).
    rewrite Ee, En, He, fmap_app, concat_app. simpl. by rewrite app_nil_r.
Qed.

Lemma origin_inv_init w outputID :
  origin_inv fetch outputID (trace_init w outputID).
Proof.
  unfold origin_inv, trace_init, st_nodes. cbn [time_Now]. simpl. split.
  - intros it ->%list_elem_of_singleton. by left.
  - by intros n ?%elem_of_nil.
Qed.

Lemma origin_inv_step outputID m st :
  origin_inv fetch outputID st -> trace_guard m st = true ->
  origin_inv fetch outputID (trace_step fetch st).
Proof.
  intros [Hqueue Hnodes] Hg. apply guard_true in Hg as [(cur & rest & Hq) _].
  destruct (visited_get (visited st) (id cur)) eqn:Hv.
  - rewrite (step_skip fetch st cur rest Hq Hv). split; [| done].
    intros it Hit. apply Hqueue. rewrite Hq. by right.
  - destruct (step_visit fetch st cur rest Hq Hv) as (Eq & _ & En & _).
    set (node := node_of_item (wall (world st) (ticks (world st))) cur) in *.
    assert (Hsub : forall n, n ∈ st_nodes st ->
                             n ∈ st_nodes (trace_step fetch st)).
    { intros n Hn. rewrite En. apply elem_of_app. by left. }
    assert (Hnode : node ∈ st_nodes (trace_step fetch st)).
    { rewrite En. apply elem_of_app. right. by apply list_elem_of_singleton. }
    split.
    + intros it. rewrite Eq. intros [Hit|Hit]%elem_of_app.
      * destruct (Hqueue it) as [?|(c & q & Hc & Hqp & ->)];
          [rewrite Hq; by right | by left |].
        right. exists c, q. split; [by apply Hsub | done].
      * apply list_elem_of_fmap in Hit as (q & -> & Hqf).
        apply list_elem_of_filter in Hqf as [_ Hqp].
        right. by exists node, q.
    + intros n. rewrite En at 1. intros [Hn|Hn]%elem_of_app.
      * destruct (Hnodes n Hn) as [?|(c & Hc & Hrep & Hd)]; [by left |].
        right. exists c. split; [by apply Hsub | done].
      * apply list_elem_of_singleton in Hn as ->.
        destruct (Hqueue cur) as [->|(c & q & Hc & Hqp & ->)];
          [rewrite Hq; by left | by left |].
        right. exists c. split; [by apply Hsub |]. split; [| done].
        by exists q.
Qed.

Lemma overshoot_inv_init w outputID m :
  overshoot_inv m (trace_init w outputID).
Proof.
  unfold overshoot_inv, trace_init, st_nodes. cbn [time_Now]. simpl.
  split; [by intros n ?%elem_of_nil | done].
Qed.

Lemma overshoot_inv_step m st :
  overshoot_inv m st -> trace_guard m st = true ->
  overshoot_inv m (trace_step fetch st).
Proof.
  intros [Hall Hbut] Hg. apply guard_true in Hg as [(cur & rest & Hq) Hm].
  destruct (visited_get (visited st) (id cur)) eqn:Hv.
  - by rewrite (step_skip fetch st cur rest Hq Hv).
  - destruct (step_visit fetch st cur rest Hq Hv)
      as (_ & _ & En & _ & Ed & _).
    unfold overshoot_inv. rewrite En, Ed. split.
    + intros n [Hn|Hn]%elem_of_app.
      * specialize (Hall n Hn). lia.
      * apply list_elem_of_singleton in Hn as ->. simpl. lia.
    + intros i n Hin Hlt. rewrite length_app in Hlt. simpl in Hlt.
      rewrite lookup_app_l in Hin by lia.
      apply list_elem_of_lookup_2 in Hin. specialize (Hall n Hin). lia.
Qed.

(** The first pass records the root, and it stays at the head. *)
Lemma root_first_step w outputID m st :
  0 <= m ->
  (st = trace_init w outputID \/
   exists rest, st_nodes st =
     root_node outputID (wall w (S (ticks w))) :: rest) ->
  trace_guard m st = true ->
  exists rest, st_nodes (trace_step fetch st) =
    root_node outputID (wall w (S (ticks w))) :: rest.
Proof.
  intros Hm [->|(rest & Hn)] Hg.
  - destruct (step_visit fetch (trace_init w outputID)
                {| id := outputID; nodeType := "external_output"; depth := 0 |} [])
      as (_ & _ & En & _); [done | done |].
    exists []. by rewrite En.
  - destruct (step_nodes_grow fetch st) as [l Hl].
    exists (rest ++ l). by rewrite Hl, Hn.
Qed.

End WalkFacts.

Section LevelOrder.

Variable fetch : string -> string -> slice CausalNode.t * slice CausalEdge.t.

(** A property kept by every guarded pass from a state that satisfies the
    loop invariant holds when the loop stops, for a path short enough. *)
Lemma loop_invariant_with (P : LoopState -> Prop) root fuel m st stf :
  (forall s, trace_inv fetch root m s -> P s -> trace_guard m s = true ->
             P (trace_step fetch s)) ->
  trace_loop fetch fuel m st = Some stf ->
  Z.of_nat (length (st_nodes stf)) < max_int ->
  trace_inv fetch root m st -> P st -> P stf.
Proof.
  intros Hstep. revert st. induction fuel as [|fuel IH]; intros st; simpl;
    destruct (trace_guard m st) eqn:Hg; intros H Hlen I HP; try done.
  - by injection H as <-.
  - apply (IH _ H Hlen); [| by apply Hstep].
    apply guard_true in Hg as [(cur & rest & Hq) Hm].
    destruct (visited_get (visited st) (id cur)) eqn:Hv.
    + by eapply inv_skip.
    + eapply inv_visit; try done.
      destruct (loop_nodes_grow _ _ _ _ _ H) as [l Hl].
      destruct (step_visit fetch st cur rest Hq Hv) as (_ & _ & En & _).
      rewrite Hl, En, !length_app in Hlen. simpl in Hlen.
      pose proof (inv_len _ _ _ _ I) as Ilen.
      destruct (queue_head _ _ _ _ (inv_queue _ _ _ _ I) Hq) as [[E _]|[E _]];
        lia.
  - by injection H as <-.
Qed.

Lemma level_inv_init w outputID : level_inv (trace_init w outputID).
Proof.
  unfold level_inv, trace_init, st_nodes. cbn [time_Now]. simpl.
  split; [done |]. done.
Qed.

Lemma level_inv_step root m st :
  trace_inv fetch root m st -> level_inv st -> trace_guard m st = true ->
  level_inv (trace_step fetch st).
Proof.
  intros I [Hlast Hadj] Hg. apply guard_true in Hg as [(cur & rest & Hq) Hm].
  destruct (visited_get (visited st) (id cur)) eqn:Hv.
  - by rewrite (step_skip fetch st cur rest Hq Hv).
  - destruct (step_visit fetch st cur rest Hq Hv)
      as (_ & _ & En & _ & Ed & _).
    set (node := node_of_item (wall (world st) (ticks (world st))) cur) in *.
    assert (Hd : depth cur = st_depth st \/ depth cur = st_depth st + 1).
    { destruct (queue_head _ _ _ _ (inv_queue _ _ _ _ I) Hq) as [[E _]|[E _]];
        auto. }
    unfold level_inv. rewrite En, Ed. split.
    + intros n. rewrite last_snoc. intros [= <-]. simpl. lia.
    + intros i a b Ha Hb.
      destruct (decide (S i < length (st_nodes st))%nat) as [Hlt|Hge].
      * rewrite lookup_app_l in Ha by lia. rewrite lookup_app_l in Hb by lia.
        by eapply Hadj.
      * assert (S i = length (st_nodes st)) as Hi.
        { apply lookup_lt_Some in Hb. rewrite length_app in Hb. simpl in Hb.
          lia. }
        rewrite lookup_app_l in Ha by lia.
        rewrite lookup_app_r in Hb by lia.
        replace (S i - length (st_nodes st))%nat with O in Hb by lia.
        injection Hb as <-. simpl.
        assert (last (st_nodes st) = Some a) as Hla.
        { rewrite last_lookup. rewrite <- Hi. done. }
        rewrite (Hlast a Hla). lia.
Qed.

End LevelOrder.

Section WalkTheorems.

Variable fetch : string -> string -> slice CausalNode.t * slice CausalEdge.t.

Lemma returned_root_first fuel w outputID maxDepth p e w' :
  TraceCausalityWith fetch fuel w outputID maxDepth = Some ((p, e), w') ->
  exists rest, elems (CausalPath.Nodes p) =
    root_node outputID (wall w (S (ticks w))) :: rest.
Proof.
  intros H. destruct (TraceCausalityWith_loop fetch _ _ _ _ _ _ _ H)
    as (stf & Hloop & -> & _ & _).
  pose proof (normalize_pos maxDepth 100 ltac:(lia)) as Hm.
  pose proof (loop_invariant fetch
    (fun st => st = trace_init w outputID \/
               exists rest, st_nodes st =
                 root_node outputID (wall w (S (ticks w))) :: rest)
    fuel (normalize maxDepth 100) (trace_init w outputID) stf) as Hinv.
  destruct Hinv as [->|Hroot]; [| by left | exact Hloop | | done].
  - intros s Hs Hg. right. eapply root_first_step; [| exact Hs | exact Hg]. lia.
  - apply loop_stops in Hloop. rewrite init_guard in Hloop; [done | lia].
Qed.

End WalkTheorems.

(** X1. The walk of [TraceCausality] terminates on every graph, cyclic ones
    included: for every parent fetch and every ceiling below [math.MaxInt]
    it returns within [trace_fuel] passes, with a [nil] error and at most
    that many nodes. *)
Theorem TraceCausality_walk_terminates
    (fetch : string -> string -> slice CausalNode.t * slice CausalEdge.t)
    w outputID maxDepth :
  normalize maxDepth 100 < max_int ->
  exists p w',
    TraceCausalityWith fetch (trace_fuel fetch outputID maxDepth) w outputID
      maxDepth = Some ((p, nil_error), w') /\
    (length (elems (CausalPath.Nodes p)) <=
     trace_fuel fetch outputID maxDepth)%nat.
Proof.
  intros Hm.
  destruct (TraceCausalityWith_returns fetch w outputID maxDepth
              (trace_fuel fetch outputID maxDepth) Hm ltac:(lia))
    as (p & w' & H).
  exists p, w'. split; [exact H |].
  destruct (TraceCausalityWith_loop fetch _ _ _ _ _ _ _ H)
    as (stf & Hloop & -> & _ & _).
  apply loop_nodes_bound in Hloop. unfold trace_init in Hloop.
  cbn [time_Now] in Hloop. unfold st_nodes in *. simpl in Hloop. lia.
Qed.

Lemma TraceCausality_walk_terminates_witness :
  normalize 50 100 < max_int /\
  exists p w',
    TraceCausalityWith cyclic_fetch (trace_fuel cyclic_fetch "out" 50)
      (world_of empty_store) "out" 50 = Some ((p, nil_error), w') /\
    (length (elems (CausalPath.Nodes p)) <= trace_fuel cyclic_fetch "out" 50)%nat.
Proof.
  assert (normalize 50 100 < max_int) as H by (vm_compute; reflexivity).
  split; [exact H |].
  exact (TraceCausality_walk_terminates cyclic_fetch (world_of empty_store)
           "out" 50 H).
Defined.

(** X2. The ceiling is passed by one level at most, and by one node at
    most: every node of a returned path except the last has a depth of at
    most [maxDepth], and the last node and the depth of the path are at
    most [maxDepth + 1]. The loop tests the running depth before it takes an
    entry from the queue, and stops right after it has recorded a node above
    the ceiling. *)
Theorem TraceCausality_ceiling_overshoot
    (fetch : string -> string -> slice CausalNode.t * slice CausalEdge.t)
    fuel w outputID maxDepth p e w' :
  TraceCausalityWith fetch fuel w outputID maxDepth = Some ((p, e), w') ->
  (forall i n, elems (CausalPath.Nodes p) !! i = Some n ->
     (S i < length (elems (CausalPath.Nodes p)))%nat ->
     CausalNode.Depth n <= normalize maxDepth 100) /\
  (len (CausalPath.Nodes p) < max_int ->
   CausalPath.Depth p <= normalize maxDepth 100 + 1 /\
   forall n, n ∈ elems (CausalPath.Nodes p) ->
             CausalNode.Depth n <= normalize maxDepth 100 + 1).
Proof.
  intros H. split.
  - destruct (TraceCausalityWith_loop fetch _ _ _ _ _ _ _ H)
      as (stf & Hloop & -> & _ & _).
    eapply (loop_invariant fetch (overshoot_inv (normalize maxDepth 100)));
      [| apply overshoot_inv_init | exact Hloop].
    intros s Hs Hg. by apply overshoot_inv_step.
  - intros Hlen. by eapply TraceCausalityWith_ceiling.
Qed.

Lemma TraceCausality_ceiling_overshoot_witness :
  sample_trace 1 = Some ((shallow_path, nil_error), shallow_world) /\
  (forall i n, elems (CausalPath.Nodes shallow_path) !! i = Some n ->
     (S i < length (elems (CausalPath.Nodes shallow_path)))%nat ->
     CausalNode.Depth n <= normalize 1 100) /\
  (len (CausalPath.Nodes shallow_path) < max_int ->
   CausalPath.Depth shallow_path <= normalize 1 100 + 1 /\
   forall n, n ∈ elems (CausalPath.Nodes shallow_path) ->
             CausalNode.Depth n <= normalize 1 100 + 1) /\
  CausalPath.Depth shallow_path = normalize 1 100 + 1.
Proof.
  assert (sample_trace 1 = Some ((shallow_path, nil_error), shallow_world))
    as Hrun by (vm_compute; reflexivity).
  split; [exact Hrun |].
  pose proof (TraceCausality_ceiling_overshoot (store_parents fanin_store)
                20%nat (world_of fanin_store) "out-1" 1 shallow_path nil_error
                shallow_world Hrun) as [H1 H2].
  split; [exact H1 |]. split; [exact H2 | reflexivity].
Defined.

(** X3. The nodes of a returned path are in breadth-first level order: the
    first node has depth 0, from one node to the next the depth stays or
    grows by one, and the last node has the depth of the path. *)
Theorem TraceCausality_level_order
    (fetch : string -> string -> slice CausalNode.t * slice CausalEdge.t)
    fuel w outputID maxDepth p e w' :
  TraceCausalityWith fetch fuel w outputID maxDepth = Some ((p, e), w') ->
  len (CausalPath.Nodes p) < max_int ->
  (forall n, elems (CausalPath.Nodes p) !! 0%nat = Some n ->
             CausalNode.Depth n = 0) /\
  (forall i a b, elems (CausalPath.Nodes p) !! i = Some a ->
                 elems (CausalPath.Nodes p) !! S i = Some b ->
     CausalNode.Depth a <= CausalNode.Depth b <= CausalNode.Depth a + 1) /\
  (forall n, last (elems (CausalPath.Nodes p)) = Some n ->
             CausalNode.Depth n = CausalPath.Depth p).
Proof.
  intros H Hlen. split.
  - destruct (returned_root_first fetch _ _ _ _ _ _ _ H) as [rest ->].
    by intros n [= <-].
  - destruct (TraceCausalityWith_loop fetch _ _ _ _ _ _ _ H)
      as (stf & Hloop & -> & _ & _).
    pose proof (normalize_pos maxDepth 100 ltac:(lia)) as Hm.
    assert (level_inv stf) as [Hlast Hadj].
    { eapply (loop_invariant_with fetch level_inv outputID);
        [| exact Hloop | exact Hlen | apply inv_init; lia
         | apply level_inv_init].
      intros s I Hs Hg. by eapply level_inv_step. }
    split; [exact Hadj | exact Hlast].
Qed.

Lemma TraceCausality_level_order_witness :
  sample_trace 100 = Some ((sample_path, nil_error), sample_world) /\
  len (CausalPath.Nodes sample_path) < max_int /\
  (forall n, elems (CausalPath.Nodes sample_path) !! 0%nat = Some n ->
             CausalNode.Depth n = 0) /\
  (forall i a b, elems (CausalPath.Nodes sample_path) !! i = Some a ->
                 elems (CausalPath.Nodes sample_path) !! S i = Some b ->
     CausalNode.Depth a <= CausalNode.Depth b <= CausalNode.Depth a + 1) /\
  (forall n, last (elems (CausalPath.Nodes sample_path)) = Some n ->
             CausalNode.Depth n = CausalPath.Depth sample_path).
Proof.
  assert (sample_trace 100 = Some ((sample_path, nil_error), sample_world))
    as Hrun by (vm_compute; reflexivity).
  assert (len (CausalPath.Nodes sample_path) < max_int) as Hlen
    by (vm_compute; reflexivity).
  split; [exact Hrun |]. split; [exact Hlen |].
  exact (TraceCausality_level_order (store_parents fanin_store) 20%nat
           (world_of fanin_store) "out-1" 100 sample_path nil_error
           sample_world Hrun Hlen).
Defined.

(** X4. The frame of a returned path: it carries the output id that was
    asked for and the instant of the call, its latency is left at 0, its
    node and edge lists are never [nil], its first node is the root, of type
    external_output and depth 0, and no node carries metadata. *)
Theorem TraceCausality_path_frame
    (fetch : string -> string -> slice CausalNode.t * slice CausalEdge.t)
    fuel w outputID maxDepth p e w' :
  TraceCausalityWith fetch fuel w outputID maxDepth = Some ((p, e), w') ->
  CausalPath.OutputID p = outputID /\
  CausalPath.TracedAt p = wall w (ticks w) /\
  CausalPath.TotalLatencyMs p = float64_zero /\
  is_nil (CausalPath.Nodes p) = false /\
  is_nil (CausalPath.Edges p) = false /\
  (exists rest, elems (CausalPath.Nodes p) =
     root_node outputID (wall w (S (ticks w))) :: rest) /\
  (forall n, n ∈ elems (CausalPath.Nodes p) -> CausalNode.Metadata n = None).
Proof.
  intros H.
  pose proof (returned_root_first fetch _ _ _ _ _ _ _ H) as Hroot.
  destruct (TraceCausalityWith_loop fetch _ _ _ _ _ _ _ H)
    as (stf & Hloop & -> & _ & _).
  assert (clock_inv w outputID stf)
    as (_ & _ & Hts & Htr & Hout & Hlat & Hedges & Hnodes).
  { eapply (loop_invariant fetch (clock_inv w outputID));
      [| apply clock_inv_init | exact Hloop].
    intros s Hs Hg. by eapply clock_inv_step. }
  do 5 (split; [done |]). split; [exact Hroot |].
  intros n [i Hi]%list_elem_of_lookup. by apply (Hts i n).
Qed.

Lemma TraceCausality_path_frame_witness :
  sample_trace 100 = Some ((sample_path, nil_error), sample_world) /\
  CausalPath.OutputID sample_path = "out-1" /\
  CausalPath.TracedAt sample_path = 0 /\
  CausalPath.TotalLatencyMs sample_path = float64_zero /\
  is_nil (CausalPath.Nodes sample_path) = false /\
  is_nil (CausalPath.Edges sample_path) = false /\
  (exists rest, elems (CausalPath.Nodes sample_path) =
     root_node "out-1" 1 :: rest) /\
  (forall n, n ∈ elems (CausalPath.Nodes sample_path) ->
             CausalNode.Metadata n = None).
Proof.
  assert (sample_trace 100 = Some ((sample_path, nil_error), sample_world))
    as Hrun by (vm_compute; reflexivity).
  split; [exact Hrun |].
  exact (TraceCausality_path_frame (store_parents fanin_store) 20%nat
           (world_of fanin_store) "out-1" 100 sample_path nil_error
           sample_world Hrun).
Defined.

(** X5. The edge list of a returned path is the concatenation, in the order
    of the node list, of the edges that the fetch reported for each recorded
    node: no edge is dropped, added or reordered. *)
Theorem TraceCausality_edges_follow_nodes
    (fetch : string -> string -> slice CausalNode.t * slice CausalEdge.t)
    fuel w outputID maxDepth p e w' :
  TraceCausalityWith fetch fuel w outputID maxDepth = Some ((p, e), w') ->
  elems (CausalPath.Edges p) =
  concat (edges_of fetch <$> elems (CausalPath.Nodes p)).
Proof.
  intros H.
  destruct (TraceCausalityWith_loop fetch _ _ _ _ _ _ _ H)
    as (stf & Hloop & -> & _ & _).
  eapply (loop_invariant fetch
            (fun st => st_edges st = concat (edges_of fetch <$> st_nodes st)));
    [| | exact Hloop].
  - intros s Hs Hg. by eapply edges_step.
  - unfold trace_init. cbn [time_Now]. done.
Qed.

Lemma TraceCausality_edges_follow_nodes_witness :
  sample_trace 100 = Some ((sample_path, nil_error), sample_world) /\
  elems (CausalPath.Edges sample_path) =
  concat (edges_of (store_parents fanin_store) <$>
          elems (CausalPath.Nodes sample_path)).
Proof.
  assert (sample_trace 100 = Some ((sample_path, nil_error), sample_world))
    as Hrun by (vm_compute; reflexivity).
  split; [exact Hrun |].
  exact (TraceCausality_edges_follow_nodes (store_parents fanin_store) 20%nat
           (world_of fanin_store) "out-1" 100 sample_path nil_error
           sample_world Hrun).
Defined.

(** X6. A path whose depth has not passed the ceiling is complete: the loop
    stopped on the empty queue, so that every parent reported for a recorded
    node is recorded, and with it every id that a chain of discovered parent
    edges reaches from the root. *)
Theorem TraceCausality_complete_below_ceiling
    (fetch : string -> string -> slice CausalNode.t * slice CausalEdge.t)
    fuel w outputID maxDepth p e w' :
  TraceCausalityWith fetch fuel w outputID maxDepth = Some ((p, e), w') ->
  len (CausalPath.Nodes p) < max_int ->
  CausalPath.Depth p <= normalize maxDepth 100 ->
  (forall n q, n ∈ elems (CausalPath.Nodes p) -> q ∈ parents_of fetch n ->
               CausalNode.ID q ∈ node_ids (elems (CausalPath.Nodes p))) /\
  (forall k x, hops fetch (elems (CausalPath.Nodes p)) outputID k x ->
               x ∈ node_ids (elems (CausalPath.Nodes p))).
Proof.
  intros H Hlen Hdepth.
  pose proof (returned_root_first fetch _ _ _ _ _ _ _ H) as [rest Hroot].
  destruct (TraceCausalityWith_final fetch fuel w outputID maxDepth p e w' H Hlen)
    as (stf & -> & _ & _ & I & Hg & _).
  fold (st_nodes stf) in *. fold (st_depth stf) in Hdepth.
  assert (Hclosed : forall n q, n ∈ st_nodes stf -> q ∈ parents_of fetch n ->
                                CausalNode.ID q ∈ node_ids (st_nodes stf)).
  { intros n q Hn Hq.
    destruct (inv_links _ _ _ _ I n q Hn Hq)
      as [(n' & Hn' & Hid & _)|[_ (it & Hit & _)]].
    - rewrite <- Hid. apply list_elem_of_fmap. by exists n'.
    - exfalso. apply guard_false in Hg as [Hg|Hg]; [| lia].
      rewrite Hg in Hit. by apply elem_of_nil in Hit. }
  split; [exact Hclosed |].
  intros k x Hk. induction Hk as [|k c x _ IH (n & q & Hn & _ & Hq & <-)].
  - rewrite Hroot. simpl. by left.
  - by eapply Hclosed.
Qed.

Lemma TraceCausality_complete_below_ceiling_witness :
  sample_trace 100 = Some ((sample_path, nil_error), sample_world) /\
  len (CausalPath.Nodes sample_path) < max_int /\
  CausalPath.Depth sample_path <= normalize 100 100 /\
  (forall n q, n ∈ elems (CausalPath.Nodes sample_path) ->
               q ∈ parents_of (store_parents fanin_store) n ->
               CausalNode.ID q ∈ node_ids (elems (CausalPath.Nodes sample_path))) /\
  (forall k x, hops (store_parents fanin_store)
                 (elems (CausalPath.Nodes sample_path)) "out-1" k x ->
               x ∈ node_ids (elems (CausalPath.Nodes sample_path))).
Proof.
  assert (sample_trace 100 = Some ((sample_path, nil_error), sample_world))
    as Hrun by (vm_compute; reflexivity).
  assert (len (CausalPath.Nodes sample_path) < max_int) as Hlen
    by (vm_compute; reflexivity).
  assert (CausalPath.Depth sample_path <= normalize 100 100) as Hd
    by (vm_compute; discriminate).
  split; [exact Hrun |]. split; [exact Hlen |]. split; [exact Hd |].
  exact (TraceCausality_complete_below_ceiling (store_parents fanin_store)
           20%nat (world_of fanin_store) "out-1" 100 sample_path nil_error
           sample_world Hrun Hlen Hd).
Defined.

(** X7. The clock is read once when the trace starts and once for each
    recorded node, and for nothing else: the node at position [i] carries
    the reading number [i + 1] after the one of [TracedAt], and the call
    leaves the clock advanced by one more than the number of nodes. When
    the clock does not run backwards, [TracedAt] is no later than any node
    and the timestamps follow the order of the node list. *)
Theorem TraceCausality_clock_readings
    (fetch : string -> string -> slice CausalNode.t * slice CausalEdge.t)
    fuel w outputID maxDepth p e w' :
  TraceCausalityWith fetch fuel w outputID maxDepth = Some ((p, e), w') ->
  (forall i n, elems (CausalPath.Nodes p) !! i = Some n ->
     CausalNode.Timestamp n = wall w (S (ticks w) + i)%nat) /\
  wall w' = wall w /\
  ticks w' = (S (ticks w) + length (elems (CausalPath.Nodes p)))%nat /\
  ((forall a b, (a <= b)%nat -> wall w a <= wall w b) ->
   (forall n, n ∈ elems (CausalPath.Nodes p) ->
      CausalPath.TracedAt p <= CausalNode.Timestamp n) /\
   (forall i j a b, (i <= j)%nat ->
      elems (CausalPath.Nodes p) !! i = Some a ->
      elems (CausalPath.Nodes p) !! j = Some b ->
      CausalNode.Timestamp a <= CausalNode.Timestamp b)).
Proof.
  intros H.
  destruct (TraceCausalityWith_loop fetch _ _ _ _ _ _ _ H)
    as (stf & Hloop & -> & -> & _).
  assert (clock_inv w outputID stf) as (Hwall & Hticks & Hts & Htr & _).
  { eapply (loop_invariant fetch (clock_inv w outputID));
      [| apply clock_inv_init | exact Hloop].
    intros s Hs Hg. by eapply clock_inv_step. }
  fold (st_nodes stf).
  split; [intros i n Hi; by apply (Hts i n) |].
  split; [done |]. split; [done |].
  intros Hmono. split.
  - intros n [i Hi]%list_elem_of_lookup.
    destruct (Hts i n Hi) as [-> _]. rewrite Htr. apply Hmono. lia.
  - intros i j a b Hij Ha Hb.
    destruct (Hts i a Ha) as [-> _]. destruct (Hts j b Hb) as [-> _].
    apply Hmono. lia.
Qed.

Lemma TraceCausality_clock_readings_witness :
  sample_trace 100 = Some ((sample_path, nil_error), sample_world) /\
  (forall a b, (a <= b)%nat ->
     wall (world_of fanin_store) a <= wall (world_of fanin_store) b) /\
  (forall i n, elems (CausalPath.Nodes sample_path) !! i = Some n ->
     CausalNode.Timestamp n = wall (world_of fanin_store) (1 + i)%nat) /\
  ticks sample_world =
    (1 + length (elems (CausalPath.Nodes sample_path)))%nat /\
  (forall n, n ∈ elems (CausalPath.Nodes sample_path) ->
     CausalPath.TracedAt sample_path <= CausalNode.Timestamp n).
Proof.
  assert (sample_trace 100 = Some ((sample_path, nil_error), sample_world))
    as Hrun by (vm_compute; reflexivity).
  assert (forall a b, (a <= b)%nat ->
            wall (world_of fanin_store) a <= wall (world_of fanin_store) b)
    as Hmono by (intros a b Hab; simpl; lia).
  split; [exact Hrun |]. split; [exact Hmono |].
  pose proof (TraceCausality_clock_readings (store_parents fanin_store) 20%nat
                (world_of fanin_store) "out-1" 100 sample_path nil_error
                sample_world Hrun) as (Hts & _ & Hticks & Hord).
  split; [exact Hts |]. split; [exact Hticks |].
  exact (proj1 (Hord Hmono)).
Defined.

(** X8. Every recorded node has an origin: it is the root, with the id that
    was asked for, type external_output and depth 0, or a recorded node
    reported it as a parent, with its id and its type, and its depth is the
    depth of that node plus one (in [int] arithmetic). *)
Theorem TraceCausality_node_origin
    (fetch : string -> string -> slice CausalNode.t * slice CausalEdge.t)
    fuel w outputID maxDepth p e w' :
  TraceCausalityWith fetch fuel w outputID maxDepth = Some ((p, e), w') ->
  forall n, n ∈ elems (CausalPath.Nodes p) ->
    (CausalNode.ID n = outputID /\ CausalNode.Type_ n = "external_output" /\
     CausalNode.Depth n = 0) \/
    exists c, c ∈ elems (CausalPath.Nodes p) /\ reported_by fetch c n /\
              CausalNode.Depth n = int_add (CausalNode.Depth c) 1.
Proof.
  intros H.
  destruct (TraceCausalityWith_loop fetch _ _ _ _ _ _ _ H)
    as (stf & Hloop & -> & _ & _).
  assert (origin_inv fetch outputID stf) as [_ Hnodes]; [| exact Hnodes].
  eapply (loop_invariant fetch (origin_inv fetch outputID));
    [| apply origin_inv_init | exact Hloop].
  intros s Hs Hg. by eapply origin_inv_step.
Qed.

Lemma TraceCausality_node_origin_witness :
  sample_trace 100 = Some ((sample_path, nil_error), sample_world) /\
  forall n, n ∈ elems (CausalPath.Nodes sample_path) ->
    (CausalNode.ID n = "out-1" /\ CausalNode.Type_ n = "external_output" /\
     CausalNode.Depth n = 0) \/
    exists c, c ∈ elems (CausalPath.Nodes sample_path) /\
              reported_by (store_parents fanin_store) c n /\
              CausalNode.Depth n = int_add (CausalNode.Depth c) 1.
Proof.
  assert (sample_trace 100 = Some ((sample_path, nil_error), sample_world))
    as Hrun by (vm_compute; reflexivity).
  split; [exact Hrun |].
  exact (TraceCausality_node_origin (store_parents fanin_store) 20%nat
           (world_of fanin_store) "out-1" 100 sample_path nil_error
           sample_world Hrun).
Defined.

(** * Further properties of the derived views *)

Lemma int_add_wrap z : int_add (wrap z) 1 = wrap (z + 1).
Proof.
  unfold int_add, wrap.
  replace ((z + 2 ^ 63) mod 2 ^ 64 - 2 ^ 63 + 1 + 2 ^ 63)
    with ((z + 2 ^ 63) mod 2 ^ 64 + 1) by lia.
  replace (z + 1 + 2 ^ 63) with ((z + 2 ^ 63) + 1) by lia.
  by rewrite Zplus_mod_idemp_l.
Qed.

Lemma fold_count_types_int (l pre : list CausalNode.t) (m : gmap string Z) :
  (forall ty, m !! ty = count_entry_int (count_of_type ty pre)) ->
  forall ty,
    fold_left
      (fun counts node =>
         <[CausalNode.Type_ node :=
             int_add (default 0 (counts !! CausalNode.Type_ node)) 1]> counts)
      l m !! ty =
    count_entry_int (count_of_type ty (pre ++ l)).
Proof.
  revert pre m. induction l as [|n l IH]; intros pre m Hm ty; simpl.
  - by rewrite app_nil_r.
  - replace (pre ++ n :: l) with ((pre ++ [n]) ++ l)
      by (by rewrite <- app_assoc).
    apply IH. intros ty'. rewrite count_of_type_snoc.
    destruct (decide (CausalNode.Type_ n = ty')) as [<-|Hne].
    + rewrite lookup_insert_eq, Hm.
      replace (count_of_type (CausalNode.Type_ n) pre + 1)%nat
        with (S (count_of_type (CausalNode.Type_ n) pre)) by lia.
      cbn [count_entry_int]. f_equal.
      destruct (count_of_type (CausalNode.Type_ n) pre) as [|c]; [done |].
      change (int_add (wrap (Z.of_nat (S c))) 1 = wrap (Z.of_nat (S (S c)))).
      rewrite int_add_wrap. f_equal. lia.
    + rewrite lookup_insert_ne by done. rewrite Hm. f_equal. lia.
Qed.

(** X9. [CountByType] on every path, however long: a type that no node has
    is absent from the map, and a type that [c] nodes have is mapped to [c]
    reduced to the range of [int]. Below [math.MaxInt] nodes this is [c]
    itself. *)
Theorem CountByType_counts_in_int (p : CausalPath.t) (ty : string) :
  CountByType p !! ty =
  count_entry_int (count_of_type ty (elems (CausalPath.Nodes p))).
Proof.
  unfold CountByType.
  apply (fold_count_types_int (elems (CausalPath.Nodes p)) [] ∅).
  intros ty'. by rewrite lookup_empty.
Qed.

(** X10. The filters never return [nil]: [GetSpikeEvents] and
    [GetDecisions] give an empty list that is not [nil] when no node has the
    type, also for a path whose node list is [nil]; [CountByType] is then
    the empty map. *)
Theorem views_of_empty_path (p : CausalPath.t) :
  is_nil (GetSpikeEvents p) = false /\
  is_nil (GetDecisions p) = false /\
  (count_of_type "spike_event" (elems (CausalPath.Nodes p)) = O ->
   elems (GetSpikeEvents p) = []) /\
  (count_of_type "routing_decision" (elems (CausalPath.Nodes p)) = O ->
   elems (GetDecisions p) = []) /\
  (elems (CausalPath.Nodes p) = [] -> CountByType p = ∅).
Proof.
  assert (Hnil : forall ty (l : list CausalNode.t) (acc : slice CausalNode.t),
    is_nil acc = false ->
    is_nil (fold_left
              (fun events node =>
                 if decide (CausalNode.Type_ node = ty)
                 then slice_append events node else events) l acc) = false).
  { intros ty l. induction l as [|n l IH]; intros acc Hacc; simpl; [done |].
    apply IH. by destruct (decide (CausalNode.Type_ n = ty)). }
  split; [by apply Hnil |]. split; [by apply Hnil |].
  split; [| split].
  - unfold GetSpikeEvents, count_of_type. rewrite fold_select_type. simpl.
    by intros ?%length_zero_iff_nil.
  - unfold GetDecisions, count_of_type. rewrite fold_select_type. simpl.
    by intros ?%length_zero_iff_nil.
  - unfold CountByType. by intros ->.
Qed.

Lemma views_of_empty_path_witness :
  count_of_type "spike_event"
    (elems (CausalPath.Nodes
              (CausalPath.mk "x" nil_slice nil_slice 0 float64_zero 0))) = O /\
  elems (GetSpikeEvents
           (CausalPath.mk "x" nil_slice nil_slice 0 float64_zero 0)) = [] /\
  is_nil (GetSpikeEvents
            (CausalPath.mk "x" nil_slice nil_slice 0 float64_zero 0)) = false /\
  CountByType (CausalPath.mk "x" nil_slice nil_slice 0 float64_zero 0) = ∅.
Proof.
  pose proof (views_of_empty_path
                (CausalPath.mk "x" nil_slice nil_slice 0 float64_zero 0))
    as (Hn & _ & Hs & _ & Hc).
  split; [reflexivity |]. split; [by apply Hs |]. split; [exact Hn |].
  by apply Hc.
Defined.

Lemma CountByType_lookup (p : CausalPath.t) ty :
  len (CausalPath.Nodes p) <= max_int ->
  CountByType p !! ty =
  count_entry (count_of_type ty (elems (CausalPath.Nodes p))).
Proof.
  intros Hlen. unfold CountByType.
  apply (fold_count_types (elems (CausalPath.Nodes p)) [] ∅); [| done].
  intros ty'. by rewrite lookup_empty.
Qed.

Lemma total_count_insert (m : gmap string Z) k v :
  total_count (<[k := v]> m) = total_count m - default 0 (m !! k) + v.
Proof.
  unfold total_count.
  assert (Hcomm : forall (m' : gmap string Z) (j1 j2 : string) (z1 z2 y : Z),
    j1 <> j2 -> m' !! j1 = Some z1 -> m' !! j2 = Some z2 ->
    z1 + (z2 + y) = z2 + (z1 + y)) by (intros; lia).
  destruct (m !! k) as [v0|] eqn:Hk; simpl.
  - rewrite <- insert_delete_eq.
    rewrite map_fold_insert_L; [| by eauto | by rewrite lookup_delete_eq].
    rewrite (map_fold_delete_L _ _ k v0 m); [lia | by eauto | done].
  - rewrite map_fold_insert_L; [lia | by eauto | done].
Qed.

(** X11. The counts of [CountByType] partition the nodes: a type has an
    entry exactly when some node has it, every entry is at least 1, and the
    entries add up to the number of nodes (for a node list of at most
    [math.MaxInt] nodes). *)
Theorem CountByType_partitions_nodes (p : CausalPath.t) :
  len (CausalPath.Nodes p) <= max_int ->
  (forall ty, is_Some (CountByType p !! ty) <->
              ty ∈ CausalNode.Type_ <$> elems (CausalPath.Nodes p)) /\
  (forall ty c, CountByType p !! ty = Some c ->
                1 <= c <= len (CausalPath.Nodes p)) /\
  total_count (CountByType p) = len (CausalPath.Nodes p).
Proof.
  intros Hlen. split; [| split].
  - intros ty. rewrite (CountByType_lookup p ty Hlen).
    unfold count_of_type, nodes_of_type. split.
    + intros [c Hc].
      destruct (filter _ _) as [|n l] eqn:Hf; [done |].
      assert (n ∈ filter (fun n => CausalNode.Type_ n = ty)
                         (elems (CausalPath.Nodes p)))
        as [Hty Hn]%list_elem_of_filter by (rewrite Hf; by left).
      apply list_elem_of_fmap. by exists n.
    + intros (n & -> & Hn)%list_elem_of_fmap.
      assert (n ∈ filter (fun n' => CausalNode.Type_ n' = CausalNode.Type_ n)
                         (elems (CausalPath.Nodes p)))
        as Hin by (by apply list_elem_of_filter).
      destruct (filter _ _); [by apply elem_of_nil in Hin | by eexists].
  - intros ty c. rewrite (CountByType_lookup p ty Hlen).
    pose proof (length_filter (fun n => CausalNode.Type_ n = ty)
                  (elems (CausalPath.Nodes p))) as Hf.
    unfold count_of_type, nodes_of_type, len.
    destruct (length (filter _ _)) eqn:E; simpl; [done |].
    intros [= <-]. lia.
  - unfold len in *. destruct p as [o nodes edges d lat tr]. simpl in *.
    unfold CountByType. simpl.
    induction (elems nodes) as [|n l IH] using rev_ind; [done |].
    rewrite length_app in *. simpl in Hlen.
    rewrite fold_left_app. simpl. rewrite total_count_insert, IH by lia.
    assert (forall ty,
      fold_left
        (fun (counts : gmap string Z) node =>
           <[CausalNode.Type_ node :=
               int_add (default 0 (counts !! CausalNode.Type_ node)) 1]> counts)
        l ∅ !! ty = count_entry (count_of_type ty ([] ++ l))) as Hl.
    { apply fold_count_types; [| simpl; lia].
      intros ty'. by rewrite lookup_empty. }
    rewrite Hl, default_count_entry. simpl.
    pose proof (length_filter (fun x => CausalNode.Type_ x = CausalNode.Type_ n) l)
      as Hf.
    rewrite int_add_1; [lia |].
    unfold count_of_type, nodes_of_type, min_int. lia.
Qed.

Lemma CountByType_partitions_nodes_witness :
  len (CausalPath.Nodes mixed_path) <= max_int /\
  (forall ty, is_Some (CountByType mixed_path !! ty) <->
              ty ∈ CausalNode.Type_ <$> elems (CausalPath.Nodes mixed_path)) /\
  (forall ty c, CountByType mixed_path !! ty = Some c ->
                1 <= c <= len (CausalPath.Nodes mixed_path)) /\
  total_count (CountByType mixed_path) = len (CausalPath.Nodes mixed_path).
Proof.
  assert (len (CausalPath.Nodes mixed_path) <= max_int) as H
    by (vm_compute; discriminate).
  split; [exact H |]. exact (CountByType_partitions_nodes mixed_path H).
Defined.

(** X12. The views agree with each other: the count that [CountByType]
    holds for spike_event, read with 0 for a missing key, is the length of
    [GetSpikeEvents], and likewise for routing_decision and [GetDecisions];
    the two filters share no node and together are no longer than the node
    list. *)
Theorem counts_agree_with_filters (p : CausalPath.t) :
  len (CausalPath.Nodes p) <= max_int ->
  default 0 (CountByType p !! "spike_event") = len (GetSpikeEvents p) /\
  default 0 (CountByType p !! "routing_decision") = len (GetDecisions p) /\
  (forall n, n ∈ elems (GetSpikeEvents p) -> n ∉ elems (GetDecisions p)) /\
  len (GetSpikeEvents p) + len (GetDecisions p) <= len (CausalPath.Nodes p).
Proof.
  intros Hlen.
  assert (Hs : elems (GetSpikeEvents p) =
               nodes_of_type "spike_event" (elems (CausalPath.Nodes p)))
    by (unfold GetSpikeEvents; by rewrite fold_select_type).
  assert (Hd : elems (GetDecisions p) =
               nodes_of_type "routing_decision" (elems (CausalPath.Nodes p)))
    by (unfold GetDecisions; by rewrite fold_select_type).
  split; [| split; [| split]].
  - rewrite (CountByType_lookup p _ Hlen), default_count_entry.
    unfold len. by rewrite Hs.
  - rewrite (CountByType_lookup p _ Hlen), default_count_entry.
    unfold len. by rewrite Hd.
  - intros n. rewrite Hs, Hd. unfold nodes_of_type.
    intros [Hty _]%list_elem_of_filter [Hty' _]%list_elem_of_filter.
    rewrite Hty in Hty'. discriminate.
  - unfold len. rewrite Hs, Hd. unfold nodes_of_type.
    generalize (elems (CausalPath.Nodes p)). intros l.
    induction l as [|n l IH]; simpl; [lia |].
    rewrite !filter_cons.
    destruct (decide (CausalNode.Type_ n = "spike_event")) as [Hty|Hty];
      destruct (decide (CausalNode.Type_ n = "routing_decision")) as [Hty'|Hty'];
      simpl; try lia.
    rewrite Hty in Hty'. discriminate.
Qed.

Lemma counts_agree_with_filters_witness :
  len (CausalPath.Nodes mixed_path) <= max_int /\
  default 0 (CountByType mixed_path !! "spike_event") =
    len (GetSpikeEvents mixed_path) /\
  default 0 (CountByType mixed_path !! "routing_decision") =
    len (GetDecisions mixed_path) /\
  (forall n, n ∈ elems (GetSpikeEvents mixed_path) ->
             n ∉ elems (GetDecisions mixed_path)) /\
  len (GetSpikeEvents mixed_path) + len (GetDecisions mixed_path) <=
    len (CausalPath.Nodes mixed_path).
Proof.
  assert (len (CausalPath.Nodes mixed_path) <= max_int) as H
    by (vm_compute; discriminate).
  split; [exact H |]. exact (counts_agree_with_filters mixed_path H).
Defined.

(** * Further properties of the queries *)

(** X13. The example of the source, [path, err := TraceCausality(...)]
    followed by [path.GetSpikeEvents()], finds no spike event: for every
    output id and ceiling the traced path has no spike event and no
    decision, and [CountByType] holds the single count external_output: 1. *)
Theorem traced_path_has_no_spike_event {C} (s : CausalQueryService C) ctx w
    outputID maxDepth fuel :
  exists p w',
    TraceCausality (S fuel) s ctx w outputID maxDepth =
      Some ((p, nil_error), w') /\
    elems (GetSpikeEvents p) = [] /\
    elems (GetDecisions p) = [] /\
    CountByType p = <["external_output" := 1]> ∅.
Proof.
  rewrite TraceCausality_unfold. do 2 eexists. split; [reflexivity |].
  done.
Qed.

(** X14. No query consults the context or the store: two calls with the
    same arguments, made under any two contexts, a cancelled one included,
    and in two worlds whose clocks agree, return the same result and the
    same error, whatever the two stores hold. A cancelled context does not
    stop a trace. *)
Theorem queries_ignore_context_and_store {C} (s : CausalQueryService C)
    (ctx1 ctx2 : Context) (w1 w2 : World) :
  wall w1 = wall w2 -> ticks w1 = ticks w2 ->
  (forall fuel outputID maxDepth,
     fst <$> TraceCausality fuel s ctx1 w1 outputID maxDepth =
     fst <$> TraceCausality fuel s ctx2 w2 outputID maxDepth) /\
  (forall agentID actionID,
     (GetAgentDecisionPath s ctx1 w1 agentID actionID).1 =
     (GetAgentDecisionPath s ctx2 w2 agentID actionID).1) /\
  (forall startTime endTime minOccurrences,
     (FindEmergentPatterns s ctx1 w1 startTime endTime minOccurrences).1 =
     (FindEmergentPatterns s ctx2 w2 startTime endTime minOccurrences).1) /\
  (forall patternHash limit,
     (QueryByPatternHash s ctx1 w1 patternHash limit).1 =
     (QueryByPatternHash s ctx2 w2 patternHash limit).1) /\
  (forall inferenceID,
     (QueryByInferenceID s ctx1 w1 inferenceID).1 =
     (QueryByInferenceID s ctx2 w2 inferenceID).1).
Proof.
  intros Hwall Hticks. split; [| split; [done |]; split; [done |];
                                 split; [done |]].
  - intros [|fuel] outputID maxDepth.
    + unfold TraceCausality, TraceCausalityWith. simpl.
      pose proof (normalize_pos maxDepth 100 ltac:(lia)) as Hm.
      rewrite !init_guard by lia. done.
    + rewrite !TraceCausality_unfold. simpl. by rewrite Hwall, Hticks.
  - intros inferenceID. unfold QueryByInferenceID, buildInferencePath. simpl.
    by rewrite Hwall, Hticks.
Qed.

Lemma queries_ignore_context_and_store_witness :
  wall (world_of fanin_store) = wall (world_of empty_store) /\
  ticks (world_of fanin_store) = ticks (world_of empty_store) /\
  fst <$> TraceCausality 3 service Background (world_of fanin_store) "out-1" 5 =
  fst <$> TraceCausality 3 service (WithCancel Background true)
            (world_of empty_store) "out-1" 5.
Proof.
  split; [reflexivity |]. split; [reflexivity |].
  apply (queries_ignore_context_and_store service Background
           (WithCancel Background true)
           (world_of fanin_store) (world_of empty_store) eq_refl eq_refl).
Defined.

(** * The query text *)

Lemma string_length_app (s t : string) :
  String.length (s +:+ t) = (String.length s + String.length t)%nat.
Proof. induction s as [|a s IH]; simpl; [done | by rewrite IH]. Qed.

Lemma string_app_inv_tail (s1 s2 t : string) :
  s1 +:+ t = s2 +:+ t -> s1 = s2.
Proof.
  revert s2. induction s1 as [|a s1 IH]; intros [|b s2] H; simpl in H.
  - done.
  - exfalso. apply (f_equal String.length) in H. simpl in H.
    rewrite !string_length_app in H. simpl in H. lia.
  - exfalso. apply (f_equal String.length) in H. simpl in H.
    rewrite !string_length_app in H. simpl in H. lia.
  - injection H as -> H. f_equal. by apply IH.
Qed.

Lemma count_char_app c (s t : string) :
  count_char c (s +:+ t) = (count_char c s + count_char c t)%nat.
Proof. induction s as [|a s IH]; simpl; [done | rewrite IH; lia]. Qed.

Lemma pretty_N_go_no_quote x s :
  count_char "'" (pretty_N_go x s) = count_char "'" s.
Proof.
  revert s. induction (N.lt_wf_0 x) as [x _ IH]; intros s.
  assert (x = 0 \/ 0 < x)%N as [->|Hx] by lia.
  - by rewrite pretty_N_go_0.
  - rewrite pretty_N_go_step by done. rewrite IH by (by apply N.div_lt).
    unfold pretty_N_char. by repeat case_match.
Qed.

Lemma pretty_Z_no_quote (d : Z) : count_char "'" (pretty d) = O.
Proof.
  assert (forall x : positive, count_char "'" (pretty x) = O) as Hpos.
  { intros x. unfold pretty, pretty_positive, pretty, pretty_N.
    case_decide; [done |]. by rewrite pretty_N_go_no_quote. }
  destruct d as [|x|x]; unfold pretty, pretty_Z; [done | apply Hpos |].
  rewrite count_char_app, Hpos. done.
Qed.

(** X15. [TraceCausalitySQL] writes the depth it is given into the query:
    two depths give the same text only when they are equal. A non-positive
    depth is not replaced by 100, as [TraceCausality] replaces it. *)
Theorem TraceCausalitySQL_keeps_maxDepth (outputID : string) :
  (forall d1 d2,
     TraceCausalitySQL outputID d1 = TraceCausalitySQL outputID d2 -> d1 = d2) /\
  (forall d, d <= 0 ->
     TraceCausalitySQL outputID d <> TraceCausalitySQL outputID 100).
Proof.
  assert (Hinj : forall d1 d2,
    TraceCausalitySQL outputID d1 = TraceCausalitySQL outputID d2 -> d1 = d2).
  { intros d1 d2 H. unfold TraceCausalitySQL in H.
    do 3 apply String.app_inj in H.
    apply string_app_inv_tail in H. by apply pretty_Z_inj in H. }
  split; [exact Hinj |].
  intros d Hd H. apply Hinj in H. lia.
Qed.

Lemma TraceCausalitySQL_keeps_maxDepth_witness :
  0 <= 0 /\
  TraceCausalitySQL "output-123" 0 <> TraceCausalitySQL "output-123" 100.
Proof.
  split; [lia |].
  apply (TraceCausalitySQL_keeps_maxDepth "output-123"). lia.
Defined.

(** X16. [TraceCausalitySQL] copies the output id into the query without
    escaping it: the text has the 28 single quotes of the format string and
    those of the id, so that an id with a quote in it changes the quoting of
    the query; and its length is that of the format string plus those of
    the id and of the decimal depth. *)
Theorem TraceCausalitySQL_copies_id (outputID : string) (maxDepth : Z) :
  count_char "'" (TraceCausalitySQL outputID maxDepth) =
    (28 + count_char "'" outputID)%nat /\
  String.length (TraceCausalitySQL outputID maxDepth) =
    (1551 + String.length outputID + String.length (pretty maxDepth))%nat.
Proof.
  unfold TraceCausalitySQL. split.
  - rewrite !count_char_app, pretty_Z_no_quote.
    assert (count_char "'" sql_head = 3%nat) as -> by (vm_compute; reflexivity).
    assert (count_char "'" sql_body = 25%nat) as -> by (vm_compute; reflexivity).
    assert (count_char "'" sql_tail = 0%nat) as -> by (vm_compute; reflexivity).
    lia.
  - rewrite !string_length_app.
    assert (String.length sql_head = 186%nat) as -> by (vm_compute; reflexivity).
    assert (String.length sql_body = 1249%nat) as -> by (vm_compute; reflexivity).
    assert (String.length sql_tail = 116%nat) as -> by (vm_compute; reflexivity).
    lia.
Qed.

(** * Raising the ceiling *)

Section Ceilings.

Variable fetch : string -> string -> slice CausalNode.t * slice CausalEdge.t.

Lemma extends_same s1 s2 :
  st_nodes s2 = st_nodes s1 -> st_edges s2 = st_edges s1 ->
  st_depth s2 = st_depth s1 -> extends s1 s2.
Proof.
  intros Hn He Hd.
  split; [exists []; by rewrite app_nil_r |].
  split; [exists []; by rewrite app_nil_r | lia].
Qed.

Lemma extends_refl st : extends st st.
Proof. by apply extends_same. Qed.

Lemma extends_trans s1 s2 s3 : extends s1 s2 -> extends s2 s3 -> extends s1 s3.
Proof.
  intros ([l1 H1] & [e1 G1] & D1) ([l2 H2] & [e2 G2] & D2).
  split; [exists (l1 ++ l2); by rewrite H2, H1, app_assoc |].
  split; [exists (e1 ++ e2); by rewrite G2, G1, app_assoc | lia].
Qed.

Lemma step_extends st : extends st (trace_step fetch st).
Proof.
  destruct (queue st) as [|cur rest] eqn:Hq.
  - unfold trace_step. rewrite Hq. apply extends_refl.
  - destruct (visited_get (visited st) (id cur)) eqn:Hv.
    + rewrite (step_skip fetch st cur rest Hq Hv). by apply extends_same.
    + destruct (step_visit fetch st cur rest Hq Hv)
        as (_ & _ & En & Ee & Ed & _).
      split; [eauto |]. split; [eauto | lia].
Qed.

Lemma loop_extends fuel m st stf :
  trace_loop fetch fuel m st = Some stf -> extends st stf.
Proof.
  revert st. induction fuel as [|fuel IH]; intros st; simpl;
    destruct (trace_guard m st) eqn:Hg; intros H; try done.
  - injection H as <-. apply extends_refl.
  - eapply extends_trans; [apply step_extends | by apply IH].
  - injection H as <-. apply extends_refl.
Qed.

(** The loop under a higher ceiling passes through the state in which the
    loop under the lower ceiling stopped. *)
Lemma loop_ceiling_mono fuel1 fuel2 m1 m2 st s1 s2 :
  m1 <= m2 ->
  trace_loop fetch fuel1 m1 st = Some s1 ->
  trace_loop fetch fuel2 m2 st = Some s2 ->
  extends s1 s2.
Proof.
  intros Hm. revert fuel2 st.
  induction fuel1 as [|fuel1 IH]; intros fuel2 st; simpl;
    destruct (trace_guard m1 st) eqn:Hg1; intros H1 H2; try done.
  - injection H1 as <-. by eapply loop_extends.
  - assert (trace_guard m2 st = true) as Hg2.
    { apply guard_true in Hg1 as [(cur & rest & Hq) HL].
      unfold trace_guard. rewrite Hq. simpl.
      apply Z.leb_le. unfold st_depth in HL. lia. }
    destruct fuel2 as [|fuel2]; simpl in H2; rewrite Hg2 in H2; [done |].
    by eapply IH.
  - injection H1 as <-. by eapply loop_extends.
Qed.

End Ceilings.

(** X17. Raising the ceiling only extends a trace: the node list and the
    edge list returned for a ceiling are prefixes of those returned for a
    higher ceiling, and the depth of the path is not larger. *)
Theorem TraceCausality_ceiling_monotone
    (fetch : string -> string -> slice CausalNode.t * slice CausalEdge.t)
    fuel1 fuel2 w outputID k1 k2 p1 e1 w1 p2 e2 w2 :
  normalize k1 100 <= normalize k2 100 ->
  TraceCausalityWith fetch fuel1 w outputID k1 = Some ((p1, e1), w1) ->
  TraceCausalityWith fetch fuel2 w outputID k2 = Some ((p2, e2), w2) ->
  (exists l, elems (CausalPath.Nodes p2) = elems (CausalPath.Nodes p1) ++ l) /\
  (exists l, elems (CausalPath.Edges p2) = elems (CausalPath.Edges p1) ++ l) /\
  CausalPath.Depth p1 <= CausalPath.Depth p2.
Proof.
  intros Hk H1 H2.
  destruct (TraceCausalityWith_loop fetch _ _ _ _ _ _ _ H1)
    as (s1 & Hl1 & -> & _ & _).
  destruct (TraceCausalityWith_loop fetch _ _ _ _ _ _ _ H2)
    as (s2 & Hl2 & -> & _ & _).
  exact (loop_ceiling_mono fetch _ _ _ _ _ _ _ Hk Hl1 Hl2).
Qed.

Lemma TraceCausality_ceiling_monotone_witness :
  normalize 1 100 <= normalize 100 100 /\
  sample_trace 1 = Some ((shallow_path, nil_error), shallow_world) /\
  sample_trace 100 = Some ((sample_path, nil_error), sample_world) /\
  (exists l, elems (CausalPath.Nodes sample_path) =
             elems (CausalPath.Nodes shallow_path) ++ l) /\
  (exists l, elems (CausalPath.Edges sample_path) =
             elems (CausalPath.Edges shallow_path) ++ l) /\
  CausalPath.Depth shallow_path <= CausalPath.Depth sample_path.
Proof.
  assert (normalize 1 100 <= normalize 100 100) as Hk
    by (vm_compute; discriminate).
  assert (sample_trace 1 = Some ((shallow_path, nil_error), shallow_world))
    as H1 by (vm_compute; reflexivity).
  assert (sample_trace 100 = Some ((sample_path, nil_error), sample_world))
    as H2 by (vm_compute; reflexivity).
  split; [exact Hk |]. split; [exact H1 |]. split; [exact H2 |].
  exact (TraceCausality_ceiling_monotone (store_parents fanin_store)
           20%nat 20%nat (world_of fanin_store) "out-1" 1 100
           shallow_path nil_error shallow_world
           sample_path nil_error sample_world Hk H1 H2).
Defined.
